(** * dottedmag/control: checking published DNS records against a zone description

    A shallow embedding of [main.go].  The program reads the expected records
    of every domain, groups them by (name, type), asks each nameserver for each
    group and compares the answers with what was declared.

    Conventions of the embedding:
    - Go [int] and the unsigned fields of the DNS library are [Z]; the one
      conversion the program performs, [uint32(...)], has its wrap-around
      written out.  [len] is a [nat].
    - Go maps are [gmap]s.  A [map[K]bool] that only ever stores [true] is a
      [gmap K bool].
    - An [error] built by [fmt.Errorf] is the constructor of [error] holding
      the arguments of the format string; [nil] is [Ret tt].
    - Indexing a slice out of range panics in Go; the embedding returns
      [Panic] there.
    - The network is an input: a [Client] is what [client.Exchange] answers. *)

From Stdlib Require Import ZArith String Ascii List Lia Permutation.
From stdpp Require Import base option list gmap strings fin_maps.

Local Open Scope string_scope.
Local Open Scope Z_scope.

(** ** Data model *)

(** [type record struct] of the program.  The field [Type] is spelled
    [Type_] because [Type] is reserved. *)
Record record := mkRecord {
  Type_ : string;
  Name : string;
  TTL : Z;
  Target : string;
  CAATag : string;
  MXPreference : Z;
  TXTStrings : list string
}.

(** [net.IP] is only ever rendered with [String()]; an address is carried as
    that rendering. *)
Definition IP := string.
Definition IP_String (ip : IP) : string := ip.

(** [dns.RR_Header]: the record type code (uint16) and the TTL (uint32). *)
Record RR_Header := mkHeader {
  Rrtype : Z;
  Ttl : Z
}.

(** [dns.RR]: the interface value, one constructor per dynamic type the
    program asserts on, and one for every other record type of the library. *)
Inductive RR :=
| RR_A (Hdr : RR_Header) (A : IP)
| RR_AAAA (Hdr : RR_Header) (AAAA : IP)
| RR_CNAME (Hdr : RR_Header) (Target : string)
| RR_CAA (Hdr : RR_Header) (Flag : Z) (Tag : string) (Value : string)
| RR_MX (Hdr : RR_Header) (Preference : Z) (Mx : string)
| RR_TXT (Hdr : RR_Header) (Txt : list string)
| RR_Other (Hdr : RR_Header).

Definition Header (rr : RR) : RR_Header :=
  match rr with
  | RR_A h _ | RR_AAAA h _ | RR_CNAME h _ | RR_CAA h _ _ _
  | RR_MX h _ _ | RR_TXT h _ | RR_Other h => h
  end.

(** [dns.Msg], the two fields the program reads. *)
Record Msg := mkMsg {
  Rcode : Z;
  Answer : list RR
}.

Definition RcodeSuccess : Z := 0.

(** The local key types of [checkCAARecord] and [checkMXRecord]. *)
Definition caa := (string * string)%type.
Definition mx := (Z * string)%type.

(** The key sets printed by the value-mismatch error. *)
Inductive keyset :=
| StringKeys (m : gmap string bool)
| CAAKeys (m : gmap (string * string) bool)
| MXKeys (m : gmap (Z * string) bool).

(** The errors of the program, one constructor per [fmt.Errorf] (and one for
    the error handed back by [client.Exchange]). *)
Inductive error :=
| Transport (e : string)
| EmptyResponse
| NonSuccessRcode (rcode : Z)
| CountMismatch (expected actual : nat)
| TTLExceeded (ceiling : Z) (actual : Z)
| WrongType (expected : string) (actual : Z)
| ValueMismatch (expected actual : keyset)
| UnknownType.

(** What a Go function returning [(T, error)] does: return, fail, or panic. *)
Inductive result (T : Type) :=
| Ret (x : T)
| Err (e : error)
| Panic.
Arguments Ret {T} x.
Arguments Err {T} e.
Arguments Panic {T}.

Definition bind {T U} (r : result T) (k : T -> result U) : result U :=
  match r with
  | Ret x => k x
  | Err e => Err e
  | Panic => Panic
  end.

Notation "'let*' x ':=' r 'in' k" := (bind r (fun x => k))
  (at level 10, x binder, r at level 100, k at level 200).

(** ** Library functions the program calls *)

(** [strings.Join]. *)
Fixpoint Join (elems : list string) (sep : string) : string :=
  match elems with
  | [] => ""
  | [s] => s
  | s :: rest => s ++ sep ++ Join rest sep
  end.

Definition NULchar : ascii := ascii_of_nat 0.
Definition NUL : string := String NULchar "".

(** [maps.Equal] of golang.org/x/exp/maps: equal lengths, and every entry of
    [m1] is found with the same value in [m2]. *)
Definition maps_Equal `{Countable K} (m1 m2 : gmap K bool) : bool :=
  if negb (bool_decide (size m1 = size m2)) then false
  else forallb (fun kv => match m2 !! kv.1 with
                       | Some v2 => bool_decide (kv.2 = v2)
                       | None => false
                       end) (map_to_list m1).

(** [uint32(x)] for an [int] x. *)
Definition uint32 (x : Z) : Z := x mod 2 ^ 32.

(** ** The type-specific validators

    The six validators are the same text up to the type assertion and the
    key; [checkValues] is that text, and each validator instantiates it. *)
Section Validator.
Context `{Countable K}.
(** the type named in the wrong-type error *)
Variable typeName : string.
(** the key of an expected record *)
Variable expectedKey : record -> K.
(** the type assertion on an answer and its key; [None] when [!ok] *)
Variable actualKey : RR -> option K.
Variable keys : gmap K bool -> keyset.

(** [for _, expectedValue := range expectedRecords { expectedValues[key] = true }] *)
Definition expectedValuesOf (expectedRecords : list record) : gmap K bool :=
  foldl (fun m r => <[expectedKey r := true]> m) ∅ expectedRecords.

(** [for i := ...; i < len(expectedValues); i++]: [todo] is
    [len(expectedValues) - i]. *)
Fixpoint actualValuesLoop (actualRecords : list RR) (todo : nat) (i : nat)
    (actualValues : gmap K bool) : result (gmap K bool) :=
  match todo with
  | O => Ret actualValues
  | S todo' =>
      match actualRecords !! i with
      | None => Panic
      | Some rr =>
          match actualKey rr with
          | None => Err (WrongType typeName (Rrtype (Header rr)))
          | Some k =>
              actualValuesLoop actualRecords todo' (S i) (<[k := true]> actualValues)
          end
      end
  end.

Definition checkValues (actualRecords : list RR) (expectedRecords : list record)
    : result unit :=
  let expectedValues := expectedValuesOf expectedRecords in
  let* actualValues := actualValuesLoop actualRecords (size expectedValues) 0 ∅ in
  if negb (maps_Equal expectedValues actualValues)
  then Err (ValueMismatch (keys expectedValues) (keys actualValues))
  else Ret tt.
End Validator.

Definition checkARecord : list RR -> list record -> result unit :=
  checkValues "A" Target
    (fun rr => match rr with RR_A _ a => Some (IP_String a) | _ => None end)
    StringKeys.

Definition checkAAAARecord : list RR -> list record -> result unit :=
  checkValues "AAAA" Target
    (fun rr => match rr with RR_AAAA _ a => Some (IP_String a) | _ => None end)
    StringKeys.

Definition checkCNAMERecord : list RR -> list record -> result unit :=
  checkValues "CNAME" Target
    (fun rr => match rr with RR_CNAME _ t => Some t | _ => None end)
    StringKeys.

Definition checkCAARecord : list RR -> list record -> result unit :=
  checkValues "CAA" (fun r => (CAATag r, Target r))
    (fun rr => match rr with RR_CAA _ _ tag value => Some (tag, value) | _ => None end)
    CAAKeys.

Definition checkMXRecord : list RR -> list record -> result unit :=
  checkValues "MX" (fun r => (MXPreference r, Target r))
    (fun rr => match rr with RR_MX _ p m => Some (p, m) | _ => None end)
    MXKeys.

Definition checkTXTRecord : list RR -> list record -> result unit :=
  checkValues "TXT" (fun r => Join (TXTStrings r) NUL)
    (fun rr => match rr with RR_TXT _ txt => Some (Join txt NUL) | _ => None end)
    StringKeys.

(** ** Names *)

Definition absolutize (domain : string) (rel : string) : string :=
  if String.eqb rel "@" then domain
  else rel ++ "." ++ domain.

(** ** The resolver client *)

(** What [client.Exchange(m, ns)] hands back: [resp] and [err] (the round-trip
    time is discarded by the program).  Either may be nil independently. *)
Record Exchanged := mkExchanged {
  resp : option Msg;
  err : option string
}.

(** A [*dns.Client] as the program uses it.  The request [m] is built from
    [name] and [queryType] (and a random id), so the exchange is a function of
    the nameserver, the name and the query type. *)
Definition Client := string -> string -> string -> Exchanged.

Definition query (client : Client) (ns : string) (name : string) (queryType : string)
    : result Msg :=
  let x := client ns name queryType in
  match err x with
  | Some e => Err (Transport e)
  | None =>
      match resp x with
      | None => Err EmptyResponse
      | Some resp =>
          if negb (Rcode resp =? RcodeSuccess)
          then Err (NonSuccessRcode (Rcode resp))
          else Ret resp
      end
  end.

(** ** One check *)

(** [for _, answer := range resp.Answer { if answer.Header().Ttl > uint32(records[0].TTL) ... }] *)
Fixpoint ttlLoop (ttl0 : Z) (answers : list RR) : result unit :=
  match answers with
  | [] => Ret tt
  | answer :: rest =>
      if Ttl (Header answer) >? uint32 ttl0
      then Err (TTLExceeded ttl0 (Ttl (Header answer)))
      else ttlLoop ttl0 rest
  end.

(** [switch recordType]. *)
Definition dispatch (recordType : string) (answers : list RR) (records : list record)
    : result unit :=
  if String.eqb recordType "A" then checkARecord answers records
  else if String.eqb recordType "AAAA" then checkAAAARecord answers records
  else if String.eqb recordType "CNAME" then checkCNAMERecord answers records
  else if String.eqb recordType "CAA" then checkCAARecord answers records
  else if String.eqb recordType "MX" then checkMXRecord answers records
  else if String.eqb recordType "TXT" then checkTXTRecord answers records
  else Err UnknownType.

(** [doCheckRecord] makes its own client; the client it gets is an argument
    here.  [records[0]] panics on an empty slice. *)
Definition doCheckRecord (client : Client) (ns : string) (domain : string) (name : string)
    (records : list record) : result unit :=
  match records with
  | [] => Panic
  | records0 :: _ =>
      let recordType := Type_ records0 in
      let* resp := query client ns name recordType in
      if negb (length records =? length (Answer resp))%nat
      then Err (CountMismatch (length records) (length (Answer resp)))
      else
        let* _ := ttlLoop (TTL records0) (Answer resp) in
        dispatch recordType (Answer resp) records
  end.

(** ** The orchestrator *)

(** What one check reports: a dot on standard output, or a line on standard
    error with the record type, the absolute name, the nameserver and the
    error. *)
Inductive CheckOutcome :=
| Success
| Failure (recordType : string) (name : string) (ns : string) (reason : error).

Definition isFailure (o : CheckOutcome) : bool :=
  match o with
  | Success => false
  | Failure _ _ _ _ => true
  end.

(** The state shared by the goroutines: [var failed atomic.Bool] and the
    output streams. *)
Record world := mkWorld {
  failed : bool;
  reported : list CheckOutcome
}.

Definition world0 : world := mkWorld false [].

(** [checkRecord], as a step on the shared state; [None] is a panic, which
    ends the process. *)
Definition checkRecord (client : Client) (ns : string) (domain : string)
    (records : list record) (w : world) : option world :=
  match records with
  | [] => None
  | records0 :: _ =>
      let absoluteName := absolutize domain (Name records0) in
      match doCheckRecord client ns domain absoluteName records with
      | Err e =>
          Some (mkWorld true
                  (reported w ++ [Failure (Type_ records0) absoluteName ns e]))
      | Ret _ => Some (mkWorld (failed w) (reported w ++ [Success]))
      | Panic => None
      end
  end.

Definition nss : list string := ["8.8.8.8:53"; "1.1.1.1:53"].

(** An element of [data.Domains]. *)
Record Domain := mkDomain {
  DomainName : string;
  Records : list record
}.

Definition nameType := (string * string)%type.

(** [recordsByNameType[nt] = append(recordsByNameType[nt], record)] for each
    record in turn; a missing key reads as the nil slice. *)
Definition recordsByNameType (records : list record) : gmap (string * string) (list record) :=
  foldl (fun m r =>
           let nt := (Name r, Type_ r) in
           <[nt := (default [] (m !! nt) ++ [r])%list]> m)
        ∅ records.

(** The groups of a domain, in one of the orders [range] may visit them. *)
Definition groups (records : list record) : list (list record) :=
  (map_to_list (recordsByNameType records)).*2.

(** A launched [go checkRecord(wg, ns, domain.Name, records)]. *)
Record goroutine := mkGoroutine {
  g_ns : string;
  g_domain : string;
  g_records : list record
}.

(** The three nested loops of [main], in launch order. *)
Definition launches (domains : list Domain) : list goroutine :=
  d ← domains;
  records ← groups (Records d);
  ns ← nss;
  [mkGoroutine ns (DomainName d) records].

(** [wg.Wait()]: every launched goroutine runs to its end, in the order
    [sched]; [net g] is the client goroutine [g] makes. *)
Fixpoint wait (net : goroutine -> Client) (sched : list goroutine) (w : world)
    : option world :=
  match sched with
  | [] => Some w
  | g :: rest =>
      match checkRecord (net g) (g_ns g) (g_domain g) (g_records g) w with
      | None => None
      | Some w' => wait net rest w'
      end
  end.

(** The end of [main]: exit status 1 if [failed.Load()], otherwise 0. *)
Definition exitStatus (w : world) : Z :=
  if failed w then 1 else 0.

(** [main] after parsing, for a completion order [sched] of its goroutines. *)
Definition main (net : goroutine -> Client) (sched : list goroutine) : option (world * Z) :=
  match wait net sched world0 with
  | None => None
  | Some w => Some (w, exitStatus w)
  end.

(** ** Vocabulary of the statements *)

(** The query claim as it is worded, with "no response message is received"
    read as [resp] being nil. *)
Definition query_claim_as_worded : Prop :=
  ∀ (client : Client) (ns name queryType : string),
    let x := client ns name queryType in
    ((∃ e, query client ns name queryType = Err (Transport e)) ↔ err x ≠ None) ∧
    (query client ns name queryType = Err EmptyResponse ↔ resp x = None) ∧
    ((∃ code, query client ns name queryType = Err (NonSuccessRcode code)) ↔
       ∃ m, resp x = Some m ∧ Rcode m ≠ RcodeSuccess).

(** The map after [m[k] = true] for each [k] of [ks] in turn. *)
Definition insertAll `{Countable K} (m : gmap K bool) (ks : list K) : gmap K bool :=
  foldl (fun m k => <[k := true]> m) m ks.

(** The answers' keys when every answer has the asserted type. *)
Definition answerKeys {K} (actualKey : RR → option K) (actualRecords : list RR)
    : option (list K) :=
  mapM actualKey actualRecords.

(** Whether a string holds a NUL byte. *)
Fixpoint hasNUL (s : string) : bool :=
  match s with
  | EmptyString => false
  | String c s' => if Ascii.eqb c NULchar then true else hasNUL s'
  end.

(** Plain concatenation of the segments, which forgets their boundaries. *)
Definition concatSegments (segs : list string) : string := Join segs "".

(** One iteration of the grouping loop. *)
Definition addRecord (m : gmap (string * string) (list record)) (r : record)
    : gmap (string * string) (list record) :=
  <[(Name r, Type_ r) := (default [] (m !! (Name r, Type_ r)) ++ [r])%list]> m.

(** The members of all groups, as one list. *)
Definition members (m : gmap (string * string) (list record)) : list record :=
  concat (map_to_list m).*2.

(** What holds of every group under its key. *)
Definition wellGrouped (nt : string * string) (g : list record) : Prop :=
  g ≠ [] ∧ Forall (fun r => Name r = nt.1 ∧ Type_ r = nt.2) g.

(** What [checkRecord] reports for a goroutine. *)
Definition outcomeOf (net : goroutine → Client) (g : goroutine) : CheckOutcome :=
  match g_records g with
  | [] => Success
  | records0 :: _ =>
      let absoluteName := absolutize (g_domain g) (Name records0) in
      match doCheckRecord (net g) (g_ns g) (g_domain g) absoluteName (g_records g) with
      | Err e => Failure (Type_ records0) absoluteName (g_ns g) e
      | _ => Success
      end
  end.

(** Three groups against the two nameservers; the nameserver 1.1.1.1:53
    answers the MX and TXT queries with an error status. *)
Definition exampleDomains : list Domain :=
  [mkDomain "example.com"
     [mkRecord "A" "@" 300 "1.1.1.1" "" 0 [];
      mkRecord "MX" "@" 300 "mail.example.com." "" 10 [];
      mkRecord "TXT" "www" 300 "" "" 0 ["ab"; "c"]]].

Definition exampleNet : goroutine → Client := fun _ ns _ queryType =>
  if String.eqb queryType "A"
  then mkExchanged (Some (mkMsg 0 [RR_A (mkHeader 1 60) "1.1.1.1"])) None
  else if String.eqb ns "1.1.1.1:53"
  then mkExchanged (Some (mkMsg 2 [])) None
  else if String.eqb queryType "MX"
  then mkExchanged (Some (mkMsg 0 [RR_MX (mkHeader 15 60) 10 "mail.example.com."])) None
  else mkExchanged (Some (mkMsg 0 [RR_TXT (mkHeader 16 60) ["ab"; "c"]])) None.

(** The record types [doCheckRecord] has a validator for. *)
Definition supportedTypes : list string := ["A"; "AAAA"; "CNAME"; "CAA"; "MX"; "TXT"].

(** Two expected records that agree on every field a validator reads. *)
Definition sameComparedFields (a b : record) : Prop :=
  Target a = Target b ∧ CAATag a = CAATag b ∧
  MXPreference a = MXPreference b ∧ TXTStrings a = TXTStrings b.

(** * Properties *)

(** ** Names *)

(** C8: [absolutize] maps the relative name "@" to the bare domain and any
    other relative name [rel] to [rel ++ "." ++ domain]; in particular "www"
    becomes "www." followed by the domain. *)
Theorem absolutize_spec (domain rel : string) (Hrel : rel ≠ "@") :
  absolutize domain "@" = domain ∧
  absolutize domain rel = rel ++ "." ++ domain ∧
  absolutize domain "www" = "www." ++ domain.
Proof.
  unfold absolutize. repeat split.
  destruct (String.eqb_spec rel "@"); [contradiction | reflexivity].
Qed.

Lemma absolutize_spec_witness :
  "mail" ≠ "@" ∧
  absolutize "example.com" "@" = "example.com" ∧
  absolutize "example.com" "mail" = "mail.example.com" ∧
  absolutize "example.com" "www" = "www.example.com".
Proof.
  split; [discriminate | apply (absolutize_spec "example.com" "mail"); discriminate].
Defined.

(** ** The resolver client *)

Lemma query_Ret client ns name queryType m :
  client ns name queryType = mkExchanged (Some m) None ->
  Rcode m = RcodeSuccess ->
  query client ns name queryType = Ret m.
Proof.
  intros Hx Hrc. unfold query. rewrite Hx. simpl. rewrite Hrc. reflexivity.
Qed.

Lemma query_no_panic client ns name queryType :
  query client ns name queryType ≠ Panic.
Proof.
  unfold query.
  destruct (err _); [discriminate|].
  destruct (resp _) as [m|]; [|discriminate].
  destruct (negb _); discriminate.
Qed.

(** An exchange that times out hands back no message and an error: the
    query fails with the transport error, not with the empty response. *)
Lemma query_timeout_not_EmptyResponse :
  let client : Client := fun _ _ _ => mkExchanged None (Some "i/o timeout") in
  resp (client "8.8.8.8:53" "example.com" "A") = None ∧
  query client "8.8.8.8:53" "example.com" "A" = Err (Transport "i/o timeout") ∧
  ¬ query_claim_as_worded.
Proof.
  repeat split. intros Hclaim.
  destruct (Hclaim (fun _ _ _ => mkExchanged None (Some "i/o timeout"))
              "8.8.8.8:53" "example.com" "A") as (_ & [_ Hempty] & _).
  specialize (Hempty eq_refl). discriminate Hempty.
Qed.

(** C6 (amended): [query] fails with the transport error exactly when the
    exchange reports an error; with the empty-response error exactly when the
    exchange reports no error and hands back no message; with the non-success
    error exactly when the exchange reports no error and the message's status
    code is not success; it returns exactly when there is no error and the
    status is success, and then the message, and so its answer sequence, is
    the one received.  It never panics. *)
Theorem query_outcomes (client : Client) (ns name queryType : string) :
  let x := client ns name queryType in
  (∀ e, query client ns name queryType = Err (Transport e) ↔ err x = Some e) ∧
  (query client ns name queryType = Err EmptyResponse ↔
     err x = None ∧ resp x = None) ∧
  (∀ code, query client ns name queryType = Err (NonSuccessRcode code) ↔
     err x = None ∧ ∃ m, resp x = Some m ∧ Rcode m = code ∧ code ≠ RcodeSuccess) ∧
  (∀ m, query client ns name queryType = Ret m ↔
     err x = None ∧ resp x = Some m ∧ Rcode m = RcodeSuccess) ∧
  query client ns name queryType ≠ Panic.
Proof.
  unfold query. cbv zeta.
  destruct (client ns name queryType) as [[m0|] [e0|]]; simpl;
    try destruct (Z.eqb_spec (Rcode m0) RcodeSuccess) as [Hrc|Hrc]; simpl;
    repeat split; intros; try discriminate;
    repeat match goal with
           | H : _ ∧ _ |- _ => destruct H
           | H : ∃ _, _ |- _ => destruct H
           end;
    try discriminate; try congruence; eauto.
  exists m0. repeat split; congruence.
Qed.

(** ** The shared pre-checks of [doCheckRecord] *)

(** [doCheckRecord] once the query has returned the message [m]. *)
Lemma doCheckRecord_answered client ns domain name records0 rest m :
  client ns name (Type_ records0) = mkExchanged (Some m) None ->
  Rcode m = RcodeSuccess ->
  doCheckRecord client ns domain name (records0 :: rest) =
    if negb (length (records0 :: rest) =? length (Answer m))%nat
    then Err (CountMismatch (length (records0 :: rest)) (length (Answer m)))
    else let* _ := ttlLoop (TTL records0) (Answer m) in
         dispatch (Type_ records0) (Answer m) (records0 :: rest).
Proof.
  intros Hx Hrc. unfold doCheckRecord.
  rewrite (query_Ret _ _ _ _ _ Hx Hrc). reflexivity.
Qed.

(** The loop stops at the first answer above the converted ceiling. *)
Lemma ttlLoop_find ttl0 answers :
  ttlLoop ttl0 answers =
    match find (fun a => Ttl (Header a) >? uint32 ttl0) answers with
    | Some a => Err (TTLExceeded ttl0 (Ttl (Header a)))
    | None => Ret tt
    end.
Proof.
  induction answers as [|a answers IH]; simpl; [reflexivity|].
  destruct (Ttl (Header a) >? uint32 ttl0); auto.
Qed.

Lemma ttlLoop_pass ttl0 answers :
  Forall (fun a => Ttl (Header a) <= uint32 ttl0) answers ->
  ttlLoop ttl0 answers = Ret tt.
Proof.
  induction 1 as [|a answers Ha _ IH]; simpl; [reflexivity|].
  destruct (Z.gtb_spec (Ttl (Header a)) (uint32 ttl0)); [lia | exact IH].
Qed.

Lemma ttlLoop_exceeded ttl0 answers :
  Exists (fun a => Ttl (Header a) > uint32 ttl0) answers ->
  ∃ a, a ∈ answers ∧ Ttl (Header a) > uint32 ttl0 ∧
       ttlLoop ttl0 answers = Err (TTLExceeded ttl0 (Ttl (Header a))).
Proof.
  induction answers as [|a answers IH]; intros Hex; [inversion Hex|].
  simpl. destruct (Z.gtb_spec (Ttl (Header a)) (uint32 ttl0)) as [Hgt|Hle].
  - exists a. split; [left | split; [lia | reflexivity]].
  - inversion Hex as [? ? Ha | ? ? Hrest]; subst; [lia|].
    destruct (IH Hrest) as (b & Hin & Hb & Heq).
    exists b. split; [right; exact Hin | split; assumption].
Qed.

Lemma uint32_in_range x : 0 <= x < 2 ^ 32 -> uint32 x = x.
Proof. intros Hx. unfold uint32. apply Z.mod_small. exact Hx. Qed.

(** C4: when the number of answers differs from the number of expected
    records of the group, the check fails with the count mismatch carrying
    both counts, whatever the answers hold (their TTLs and types are not
    looked at: nothing is assumed about them). *)
Theorem count_mismatch_first (client : Client) (ns domain name : string)
    (records0 : record) (rest : list record) (m : Msg)
    (Hx : client ns name (Type_ records0) = mkExchanged (Some m) None)
    (Hrc : Rcode m = RcodeSuccess)
    (Hcount : length (records0 :: rest) ≠ length (Answer m)) :
  doCheckRecord client ns domain name (records0 :: rest) =
    Err (CountMismatch (length (records0 :: rest)) (length (Answer m))).
Proof.
  rewrite (doCheckRecord_answered _ _ _ _ _ _ _ Hx Hrc).
  destruct (Nat.eqb_spec (length (records0 :: rest)) (length (Answer m)));
    [contradiction | reflexivity].
Qed.

(** Two A records are expected; the single answer is a TXT record with a TTL
    above the ceiling: the count is what is reported. *)
Lemma count_mismatch_first_witness :
  let client : Client := fun _ _ _ =>
    mkExchanged (Some (mkMsg 0 [RR_TXT (mkHeader 16 9000) ["x"]])) None in
  doCheckRecord client "8.8.8.8:53" "example.com" "example.com"
    [mkRecord "A" "@" 300 "1.1.1.1" "" 0 []; mkRecord "A" "@" 300 "2.2.2.2" "" 0 []]
  = Err (CountMismatch 2 1).
Proof.
  intros client.
  apply (count_mismatch_first client "8.8.8.8:53" "example.com" "example.com"
           (mkRecord "A" "@" 300 "1.1.1.1" "" 0 [])
           [mkRecord "A" "@" 300 "2.2.2.2" "" 0 []]
           (mkMsg 0 [RR_TXT (mkHeader 16 9000) ["x"]])).
  - reflexivity.
  - reflexivity.
  - simpl. lia.
Defined.

(** The TTL comparison for a ceiling that is not a uint32: the ceiling of
    the group is -1, the answer's TTL 0 is strictly greater, and the check
    succeeds. *)
Lemma ttl_above_negative_ceiling_accepted :
  let records := [mkRecord "A" "@" (-1) "1.1.1.1" "" 0 []] in
  let answers := [RR_A (mkHeader 1 0) "1.1.1.1"] in
  let client : Client := fun _ _ _ => mkExchanged (Some (mkMsg 0 answers)) None in
  length records = length answers ∧
  Exists (fun a => Ttl (Header a) > TTL (mkRecord "A" "@" (-1) "1.1.1.1" "" 0 [])) answers ∧
  doCheckRecord client "8.8.8.8:53" "example.com" "example.com" records = Ret tt.
Proof.
  cbv zeta. split; [reflexivity|]. split.
  - constructor. simpl. lia.
  - vm_compute. reflexivity.
Qed.

(** C3 (amended): once the count check has passed, every answer's TTL is
    compared with the ceiling of the group's first member converted to an
    unsigned 32-bit value.  If some answer's TTL is strictly greater than the
    converted ceiling the check fails with the TTL error of such an answer; if
    every answer's TTL is at most the converted ceiling the TTL check passes
    and the check goes on to the type-specific comparison.  For a ceiling
    between 0 and 2^32 - 1 the converted ceiling is the ceiling itself. *)
Theorem ttl_check_upper_bound (client : Client) (ns domain name : string)
    (records0 : record) (rest : list record) (m : Msg)
    (Hx : client ns name (Type_ records0) = mkExchanged (Some m) None)
    (Hrc : Rcode m = RcodeSuccess)
    (Hcount : length (records0 :: rest) = length (Answer m)) :
  (Exists (fun a => Ttl (Header a) > uint32 (TTL records0)) (Answer m) ->
   ∃ a, a ∈ Answer m ∧ Ttl (Header a) > uint32 (TTL records0) ∧
        doCheckRecord client ns domain name (records0 :: rest) =
          Err (TTLExceeded (TTL records0) (Ttl (Header a)))) ∧
  (Forall (fun a => Ttl (Header a) <= uint32 (TTL records0)) (Answer m) ->
   doCheckRecord client ns domain name (records0 :: rest) =
     dispatch (Type_ records0) (Answer m) (records0 :: rest)) ∧
  (0 <= TTL records0 < 2 ^ 32 -> uint32 (TTL records0) = TTL records0).
Proof.
  rewrite (doCheckRecord_answered _ _ _ _ _ _ _ Hx Hrc).
  rewrite Hcount, Nat.eqb_refl. simpl negb. cbv iota.
  split; [|split].
  - intros Hex. destruct (ttlLoop_exceeded _ _ Hex) as (a & Hin & Ha & Heq).
    exists a. rewrite Heq. auto.
  - intros Hall. rewrite (ttlLoop_pass _ _ Hall). reflexivity.
  - apply uint32_in_range.
Qed.

(** Ceiling 300: an answer with TTL 301 fails, answers with TTL 300 and 12
    pass on to the comparison. *)
Lemma ttl_check_upper_bound_witness :
  let rec := mkRecord "A" "@" 300 "1.1.1.1" "" 0 [] in
  let over : Client := fun _ _ _ =>
    mkExchanged (Some (mkMsg 0 [RR_A (mkHeader 1 301) "1.1.1.1"])) None in
  let under : Client := fun _ _ _ =>
    mkExchanged (Some (mkMsg 0 [RR_A (mkHeader 1 300) "1.1.1.1"])) None in
  (∃ a, a ∈ [RR_A (mkHeader 1 301) "1.1.1.1"] ∧ Ttl (Header a) > uint32 300 ∧
        doCheckRecord over "8.8.8.8:53" "example.com" "example.com" [rec] =
          Err (TTLExceeded 300 (Ttl (Header a)))) ∧
  doCheckRecord under "8.8.8.8:53" "example.com" "example.com" [rec] =
    dispatch "A" [RR_A (mkHeader 1 300) "1.1.1.1"] [rec] ∧
  uint32 300 = 300.
Proof.
  intros rec over under. split; [|split].
  - apply (ttl_check_upper_bound over "8.8.8.8:53" "example.com" "example.com"
             rec [] (mkMsg 0 [RR_A (mkHeader 1 301) "1.1.1.1"])
             eq_refl eq_refl eq_refl).
    constructor. vm_compute. reflexivity.
  - apply (ttl_check_upper_bound under "8.8.8.8:53" "example.com" "example.com"
             rec [] (mkMsg 0 [RR_A (mkHeader 1 300) "1.1.1.1"])
             eq_refl eq_refl eq_refl).
    constructor; [vm_compute; discriminate | constructor].
  - apply (ttl_check_upper_bound under "8.8.8.8:53" "example.com" "example.com"
             rec [] (mkMsg 0 [RR_A (mkHeader 1 300) "1.1.1.1"])
             eq_refl eq_refl eq_refl).
    simpl. lia.
Defined.

(** C10: the ceiling is a signed integer converted to an unsigned 32-bit
    value for the comparison; a negative ceiling wraps modulo 2^32, -1
    becomes 4294967295, and with that ceiling every answer TTL (a uint32,
    each of them above -1) passes the TTL check. *)
Theorem negative_ceiling_wraps (c : Z) (answers : list RR)
    (Hc : - 2 ^ 32 <= c < 0)
    (Httl : Forall (fun a => 0 <= Ttl (Header a) < 2 ^ 32) answers) :
  uint32 c = c + 2 ^ 32 ∧
  uint32 (-1) = 4294967295 ∧
  Forall (fun a => Ttl (Header a) > -1) answers ∧
  ttlLoop (-1) answers = Ret tt ∧
  ∀ (client : Client) (ns domain name : string) (records0 : record) (rest : list record),
    TTL records0 = -1 ->
    client ns name (Type_ records0) = mkExchanged (Some (mkMsg RcodeSuccess answers)) None ->
    length (records0 :: rest) = length answers ->
    doCheckRecord client ns domain name (records0 :: rest) =
      dispatch (Type_ records0) answers (records0 :: rest).
Proof.
  assert (Hwrap : uint32 (-1) = 4294967295) by reflexivity.
  assert (Hpass : ttlLoop (-1) answers = Ret tt).
  { apply ttlLoop_pass. rewrite Hwrap.
    eapply Forall_impl; [exact Httl|]. simpl. intros a Ha. lia. }
  repeat split.
  - unfold uint32. symmetry. apply (Z.mod_unique _ _ (-1)); lia.
  - eapply Forall_impl; [exact Httl|]. simpl. intros a Ha. lia.
  - exact Hpass.
  - intros client ns domain name records0 rest Hm1 Hx Hlen.
    rewrite (doCheckRecord_answered _ _ _ _ _ _ _ Hx eq_refl).
    simpl Answer. rewrite Hlen, Nat.eqb_refl, Hm1, Hpass. reflexivity.
Qed.

Lemma negative_ceiling_wraps_witness :
  uint32 (-1) = -1 + 2 ^ 32 ∧
  uint32 (-1) = 4294967295 ∧
  ttlLoop (-1) [RR_A (mkHeader 1 0) "1.1.1.1"; RR_A (mkHeader 1 4294967295) "2.2.2.2"] = Ret tt.
Proof.
  destruct (negative_ceiling_wraps (-1)
              [RR_A (mkHeader 1 0) "1.1.1.1"; RR_A (mkHeader 1 4294967295) "2.2.2.2"])
    as (H1 & H2 & _ & H3 & _).
  - lia.
  - repeat constructor; simpl; lia.
  - auto.
Defined.

(** ** Maps used as sets *)

Section SetMaps.
Context `{Countable K}.
Implicit Types (m : gmap K bool) (ks : list K) (k : K).

Lemma maps_Equal_spec m1 m2 : maps_Equal m1 m2 = true ↔ m1 = m2.
Proof.
  unfold maps_Equal. split.
  - destruct (bool_decide_reflect (size m1 = size m2)) as [Hsize|]; [|discriminate].
    simpl. rewrite forallb_forall. intros Hall.
    apply map_subseteq_size_eq; [|lia].
    apply map_subseteq_spec. intros k v Hkv.
    specialize (Hall (k, v)). simpl in Hall.
    rewrite <- list_elem_of_In, elem_of_map_to_list in Hall.
    specialize (Hall Hkv).
    destruct (m2 !! k) as [v2|]; [|discriminate].
    apply bool_decide_eq_true in Hall. congruence.
  - intros ->. rewrite bool_decide_eq_true_2 by reflexivity. simpl.
    rewrite forallb_forall. intros [k v] Hin. simpl.
    apply list_elem_of_In, elem_of_map_to_list in Hin. rewrite Hin.
    apply bool_decide_eq_true. reflexivity.
Qed.

Lemma insertAll_lookup ks : ∀ m k,
  insertAll m ks !! k = if decide (k ∈ ks) then Some true else m !! k.
Proof.
  unfold insertAll.
  induction ks as [|k0 ks IH]; intros m k; simpl.
  - destruct (decide (k ∈ [])) as [Hin|]; [inversion Hin | reflexivity].
  - rewrite IH. destruct (decide (k ∈ ks)) as [Hin|Hnin].
    + rewrite decide_True by (right; exact Hin). reflexivity.
    + destruct (decide (k0 = k)) as [->|Hne].
      * rewrite lookup_insert_eq, decide_True by left. reflexivity.
      * rewrite lookup_insert_ne by exact Hne.
        rewrite decide_False; [reflexivity|].
        intros Hin. apply elem_of_cons in Hin. destruct Hin; congruence.
Qed.

Lemma insertAll_dom ks : dom (insertAll ∅ ks) = (list_to_set ks : gset K).
Proof.
  apply set_eq. intros k.
  rewrite elem_of_dom, insertAll_lookup, elem_of_list_to_set, lookup_empty.
  destruct (decide (k ∈ ks)); split; intros Hk; eauto; try contradiction.
  destruct Hk; discriminate.
Qed.

(** Two maps built from key lists are equal exactly when the key sets are. *)
Lemma insertAll_eq ks1 ks2 :
  insertAll ∅ ks1 = insertAll ∅ ks2 ↔
  (list_to_set ks1 : gset K) = list_to_set ks2.
Proof.
  split.
  - intros Heq. rewrite <- !insertAll_dom, Heq. reflexivity.
  - intros Heq. apply map_eq. intros k. rewrite !insertAll_lookup.
    assert (Hk : k ∈ ks1 ↔ k ∈ ks2).
    { rewrite <- !(elem_of_list_to_set (C := gset K)), Heq. reflexivity. }
    destruct (decide (k ∈ ks1)), (decide (k ∈ ks2)); tauto.
Qed.

Lemma insertAll_size_le ks : ∀ m, (size (insertAll m ks) ≤ size m + length ks)%nat.
Proof.
  unfold insertAll.
  induction ks as [|k ks IH]; intros m; simpl; [lia|].
  specialize (IH (<[k := true]> m)). rewrite map_size_insert in IH.
  destruct (m !! k); unfold id in IH; lia.
Qed.

Lemma insertAll_size_NoDup ks : NoDup ks → ∀ m,
  (∀ k, k ∈ ks → m !! k = None) →
  size (insertAll m ks) = (size m + length ks)%nat.
Proof.
  unfold insertAll.
  induction 1 as [|k ks Hnin Hnd IH]; intros m Hfresh; simpl; [lia|].
  rewrite IH.
  - rewrite map_size_insert_None by (apply Hfresh; left). lia.
  - intros k' Hin. rewrite lookup_insert_ne by (intros ->; contradiction).
    apply Hfresh. right. exact Hin.
Qed.
End SetMaps.

(** ** The type-specific validators *)

Section ValidatorFacts.
Context `{Countable K}.
Variable typeName : string.
Variable expectedKey : record -> K.
Variable actualKey : RR -> option K.
Variable keys : gmap K bool -> keyset.

Lemma expectedValuesOf_insertAll expectedRecords :
  expectedValuesOf expectedKey expectedRecords =
    insertAll ∅ (expectedKey <$> expectedRecords).
Proof.
  unfold expectedValuesOf, insertAll.
  generalize (∅ : gmap K bool).
  induction expectedRecords as [|r l IH]; intros m; simpl; [reflexivity | apply IH].
Qed.

(** The size of the expected key set is at most the number of expected
    records. *)
Lemma expectedValuesOf_size expectedRecords :
  (size (expectedValuesOf expectedKey expectedRecords) ≤ length expectedRecords)%nat.
Proof.
  rewrite expectedValuesOf_insertAll.
  pose proof (insertAll_size_le (expectedKey <$> expectedRecords) ∅) as Hle.
  rewrite map_size_empty, length_fmap in Hle. exact Hle.
Qed.

(** The loop reads [actualRecords[i]] ... [actualRecords[i + todo - 1]]:
    it cannot panic when those indices exist. *)
Lemma actualValuesLoop_in_bounds actualRecords todo : ∀ i actualValues,
  (i + todo ≤ length actualRecords)%nat →
  actualValuesLoop typeName actualKey actualRecords todo i actualValues ≠ Panic.
Proof.
  induction todo as [|todo IH]; intros i acc Hle; simpl; [discriminate|].
  destruct (lookup_lt_is_Some_2 actualRecords i) as [rr Hrr]; [lia|].
  rewrite Hrr. destruct (actualKey rr); [|discriminate].
  apply IH. lia.
Qed.

(** One index too many and it does panic, whatever the answers are. *)
Lemma actualValuesLoop_out_of_bounds actualRecords todo : ∀ i actualValues,
  (i ≤ length actualRecords < i + todo)%nat →
  (∀ rr, rr ∈ actualRecords → is_Some (actualKey rr)) →
  actualValuesLoop typeName actualKey actualRecords todo i actualValues = Panic.
Proof.
  induction todo as [|todo IH]; intros i acc Hlt Hok; simpl; [lia|].
  destruct (actualRecords !! i) as [rr|] eqn:Hrr; [|reflexivity].
  destruct (Hok rr) as [k Hk]; [eapply list_elem_of_lookup_2; eauto|].
  apply lookup_lt_Some in Hrr.
  rewrite Hk. apply IH; [lia | exact Hok].
Qed.

(** When every answer read has the asserted type, the loop returns the
    keys of the answers it read. *)
Lemma actualValuesLoop_Ret actualRecords ks todo : ∀ i actualValues,
  Forall2 (fun rr k => actualKey rr = Some k) actualRecords ks →
  (i + todo ≤ length actualRecords)%nat →
  actualValuesLoop typeName actualKey actualRecords todo i actualValues =
    Ret (insertAll actualValues (take todo (drop i ks))).
Proof.
  induction todo as [|todo IH]; intros i acc Hks Hle; simpl; [reflexivity|].
  destruct (lookup_lt_is_Some_2 actualRecords i) as [rr Hrr]; [lia|].
  rewrite Hrr.
  destruct (Forall2_lookup_l _ _ _ _ _ Hks Hrr) as (k & Hk & Hkey).
  rewrite Hkey, IH by (auto; lia).
  rewrite (drop_S _ _ _ Hk). reflexivity.
Qed.

Lemma checkValues_in_bounds actualRecords expectedRecords :
  length actualRecords = length expectedRecords →
  checkValues typeName expectedKey actualKey keys actualRecords expectedRecords ≠ Panic.
Proof.
  intros Hlen. unfold checkValues. cbv zeta.
  pose proof (expectedValuesOf_size expectedRecords) as Hsize.
  pose proof (actualValuesLoop_in_bounds actualRecords
                (size (expectedValuesOf expectedKey expectedRecords)) 0 ∅) as Hnp.
  destruct (actualValuesLoop _ _ _ _ _ _) as [av| |]; simpl.
  - destruct (negb _); discriminate.
  - discriminate.
  - exfalso. apply Hnp; [lia | reflexivity].
Qed.

(** The validator on a group without repeated keys, against answers that
    all have the asserted type: it compares the two key sets. *)
Lemma checkValues_distinct_keys actualRecords expectedRecords ks :
  NoDup (expectedKey <$> expectedRecords) →
  length actualRecords = length expectedRecords →
  Forall2 (fun rr k => actualKey rr = Some k) actualRecords ks →
  checkValues typeName expectedKey actualKey keys actualRecords expectedRecords =
    if decide ((list_to_set (expectedKey <$> expectedRecords) : gset K) = list_to_set ks)
    then Ret tt
    else Err (ValueMismatch (keys (insertAll ∅ (expectedKey <$> expectedRecords)))
                            (keys (insertAll ∅ ks))).
Proof.
  intros Hnd Hlen Hks. unfold checkValues. cbv zeta.
  rewrite expectedValuesOf_insertAll.
  assert (Hsize : size (insertAll ∅ (expectedKey <$> expectedRecords))
                  = length actualRecords).
  { rewrite insertAll_size_NoDup; [|exact Hnd|intros; apply lookup_empty].
    rewrite map_size_empty, length_fmap. simpl. congruence. }
  rewrite Hsize.
  rewrite (actualValuesLoop_Ret actualRecords ks) by (auto; simpl; lia).
  rewrite drop_0, firstn_all2 by (rewrite <- (Forall2_length _ _ _ Hks); lia).
  simpl.
  destruct (maps_Equal _ _) eqn:Heq; simpl.
  - apply maps_Equal_spec, insertAll_eq in Heq.
    rewrite decide_True by exact Heq. reflexivity.
  - rewrite decide_False; [reflexivity|].
    intros Hset. apply insertAll_eq, maps_Equal_spec in Hset. congruence.
Qed.
End ValidatorFacts.

Lemma dispatch_in_bounds recordType answers records :
  length answers = length records →
  dispatch recordType answers records ≠ Panic.
Proof.
  intros Hlen. unfold dispatch.
  repeat match goal with
         | |- context [String.eqb ?a ?b] => destruct (String.eqb a b)
         end;
    try (apply checkValues_in_bounds; exact Hlen).
  discriminate.
Qed.

Lemma ttlLoop_no_panic ttl0 answers : ttlLoop ttl0 answers ≠ Panic.
Proof.
  rewrite ttlLoop_find. destruct (find _ answers); discriminate.
Qed.

(** A check of a non-empty group never panics. *)
Lemma doCheckRecord_no_panic client ns domain name records :
  records ≠ [] →
  doCheckRecord client ns domain name records ≠ Panic.
Proof.
  destruct records as [|records0 rest]; [contradiction|]. intros _.
  unfold doCheckRecord.
  pose proof (query_no_panic client ns name (Type_ records0)) as Hq.
  destruct (query client ns name (Type_ records0)) as [m| |]; cbn [bind];
    [|discriminate|contradiction].
  destruct (Nat.eqb_spec (length (records0 :: rest)) (length (Answer m))) as [Hlen|];
    cbn [negb]; [|discriminate].
  pose proof (ttlLoop_no_panic (TTL records0) (Answer m)) as Httl.
  destruct (ttlLoop (TTL records0) (Answer m)) as [[]| |]; cbn [bind];
    [|discriminate|contradiction].
  apply dispatch_in_bounds. symmetry. exact Hlen.
Qed.

(** C9: after the count check (as many answers as expected records, the
    group not empty), the expected key set, whatever the key, has at most as
    many elements as there are answers, so every index the loop of a
    validator reads is in bounds and none of the six validators panics. *)
Theorem validator_index_in_bounds (actualRecords : list RR) (expectedRecords : list record)
    (Hgroup : expectedRecords ≠ [])
    (Hcount : length expectedRecords = length actualRecords) :
  (∀ `{Countable K} (expectedKey : record → K),
     (size (expectedValuesOf expectedKey expectedRecords) ≤ length actualRecords)%nat ∧
     ∀ i : nat, (i < size (expectedValuesOf expectedKey expectedRecords))%nat →
                is_Some (actualRecords !! i)) ∧
  checkARecord actualRecords expectedRecords ≠ Panic ∧
  checkAAAARecord actualRecords expectedRecords ≠ Panic ∧
  checkCNAMERecord actualRecords expectedRecords ≠ Panic ∧
  checkCAARecord actualRecords expectedRecords ≠ Panic ∧
  checkMXRecord actualRecords expectedRecords ≠ Panic ∧
  checkTXTRecord actualRecords expectedRecords ≠ Panic.
Proof.
  split.
  - intros K ? ? expectedKey.
    pose proof (expectedValuesOf_size expectedKey expectedRecords) as Hsize.
    split; [lia|].
    intros i Hi. apply lookup_lt_is_Some_2. lia.
  - repeat split; apply checkValues_in_bounds; symmetry; exact Hcount.
Qed.

(** Three expected records with two distinct targets, three answers. *)
Lemma validator_index_in_bounds_witness :
  let expected := [mkRecord "A" "@" 300 "1.1.1.1" "" 0 [];
                   mkRecord "A" "@" 300 "1.1.1.1" "" 0 [];
                   mkRecord "A" "@" 300 "2.2.2.2" "" 0 []] in
  let actual := [RR_A (mkHeader 1 60) "2.2.2.2"; RR_A (mkHeader 1 60) "1.1.1.1";
                 RR_A (mkHeader 1 60) "3.3.3.3"] in
  (size (expectedValuesOf Target expected) ≤ length actual)%nat ∧
  checkARecord actual expected ≠ Panic.
Proof.
  intros expected actual.
  destruct (validator_index_in_bounds actual expected) as (Hsize & HA & _).
  - discriminate.
  - reflexivity.
  - split; [apply (Hsize string _ _ Target) | exact HA].
Defined.

(** Without the count check the loop does read past the end: two distinct
    expected targets against a single answer. *)
Example checkARecord_short_answer_panics :
  checkARecord [RR_A (mkHeader 1 60) "1.1.1.1"]
    [mkRecord "A" "@" 300 "1.1.1.1" "" 0 []; mkRecord "A" "@" 300 "2.2.2.2" "" 0 []]
  = Panic.
Proof. vm_compute. reflexivity. Qed.

(** ** Comparison as sets *)

(** Where the comparison is a set comparison: for a group whose members have pairwise distinct
    keys, against as many answers, all of the asserted type, the validator
    succeeds exactly when the expected keys and the keys of all the answers
    are equal as sets, and reports the value mismatch otherwise. *)
Lemma checkValues_set_comparison `{Countable K} typeName (expectedKey : record → K)
    actualKey keys actualRecords expectedRecords ks :
  NoDup (expectedKey <$> expectedRecords) →
  length actualRecords = length expectedRecords →
  answerKeys actualKey actualRecords = Some ks →
  (checkValues typeName expectedKey actualKey keys actualRecords expectedRecords = Ret tt ↔
     (list_to_set (expectedKey <$> expectedRecords) : gset K) = list_to_set ks) ∧
  ((list_to_set (expectedKey <$> expectedRecords) : gset K) ≠ list_to_set ks →
   ∃ e a, checkValues typeName expectedKey actualKey keys actualRecords expectedRecords
          = Err (ValueMismatch e a)).
Proof.
  intros Hnd Hlen Hks. apply mapM_Some in Hks.
  rewrite (checkValues_distinct_keys typeName expectedKey actualKey keys
             actualRecords expectedRecords ks Hnd Hlen Hks).
  destruct (decide _) as [Heq|Hne]; split.
  - tauto.
  - intros Hne. contradiction.
  - split; [discriminate | contradiction].
  - intros _. eauto.
Qed.

(** C1 on the code: the group declares the target 1.1.1.1 twice and the
    nameserver answers 1.1.1.1 and 2.2.2.2.  The count and TTL checks pass,
    the expected key set has one element, the loop reads one answer, and the
    check succeeds although the key sets {1.1.1.1} and {1.1.1.1, 2.2.2.2}
    differ.  With the same answers in the other order the check fails: the
    verdict depends on the order of the answers.  Conversely, expected and
    answers both 1.1.1.1, 1.1.1.1, 2.2.2.2 have equal key sets and the check
    fails. *)
Theorem checkARecord_repeated_expected_key :
  let rec := fun t => mkRecord "A" "@" 300 t "" 0 [] in
  let ans := fun t => RR_A (mkHeader 1 300) t in
  let client := fun answers : list RR =>
    (fun _ _ _ => mkExchanged (Some (mkMsg 0 answers)) None) : Client in
  (list_to_set (Target <$> [rec "1.1.1.1"; rec "1.1.1.1"]) : gset string)
    ≠ list_to_set ["1.1.1.1"; "2.2.2.2"] ∧
  checkARecord [ans "1.1.1.1"; ans "2.2.2.2"] [rec "1.1.1.1"; rec "1.1.1.1"] = Ret tt ∧
  doCheckRecord (client [ans "1.1.1.1"; ans "2.2.2.2"]) "8.8.8.8:53" "example.com"
    "example.com" [rec "1.1.1.1"; rec "1.1.1.1"] = Ret tt ∧
  checkARecord [ans "2.2.2.2"; ans "1.1.1.1"] [rec "1.1.1.1"; rec "1.1.1.1"]
    = Err (ValueMismatch (StringKeys {["1.1.1.1" := true]})
                         (StringKeys {["2.2.2.2" := true]})) ∧
  (list_to_set (Target <$> [rec "1.1.1.1"; rec "1.1.1.1"; rec "2.2.2.2"]) : gset string)
    = list_to_set ["1.1.1.1"; "1.1.1.1"; "2.2.2.2"] ∧
  checkARecord [ans "1.1.1.1"; ans "1.1.1.1"; ans "2.2.2.2"]
    [rec "1.1.1.1"; rec "1.1.1.1"; rec "2.2.2.2"]
    = Err (ValueMismatch (StringKeys {["1.1.1.1" := true; "2.2.2.2" := true]})
                         (StringKeys {["1.1.1.1" := true]})).
Proof.
  cbv zeta. split; [|split; [|split; [|split; [|split]]]].
  - intros Heq.
    assert (Hin : "2.2.2.2" ∈ (list_to_set ["1.1.1.1"; "2.2.2.2"] : gset string))
      by set_solver.
    rewrite <- Heq in Hin. simpl in Hin.
    apply elem_of_union in Hin as [Hin|Hin];
      [|apply elem_of_union in Hin as [Hin|Hin]].
    + apply elem_of_singleton in Hin. discriminate.
    + apply elem_of_singleton in Hin. discriminate.
    + apply elem_of_empty in Hin. exact Hin.
  - vm_compute. reflexivity.
  - vm_compute. reflexivity.
  - vm_compute. reflexivity.
  - reflexivity.
  - vm_compute. reflexivity.
Qed.

(** ** The TXT key *)

Lemma hasNUL_app_NUL (a x : string) : hasNUL (a ++ NUL ++ x) = true.
Proof.
  induction a as [|c a IH]; simpl; [reflexivity|].
  destruct (Ascii.eqb c NULchar); [reflexivity | exact IH].
Qed.

(** The first NUL of a string is found after a NUL-free prefix only in one
    way. *)
Lemma app_NUL_split (a : string) : ∀ (b x y : string),
  hasNUL a = false → hasNUL b = false →
  a ++ NUL ++ x = b ++ NUL ++ y → a = b ∧ x = y.
Proof.
  induction a as [|c a IH]; intros [|d b] x y Ha Hb Heq;
    unfold NUL in Heq; simpl in *.
  - injection Heq as Heq. auto.
  - injection Heq as Hd _. rewrite <- Hd, Ascii.eqb_refl in Hb. discriminate.
  - injection Heq as Hc _. rewrite Hc, Ascii.eqb_refl in Ha. discriminate.
  - injection Heq as Hc Heq. subst d.
    destruct (Ascii.eqb c NULchar); [discriminate|].
    destruct (IH b x y Ha Hb Heq) as [Hab Hxy]. subst. auto.
Qed.

Lemma Join_cons2 (s s' : string) (rest : list string) (sep : string) :
  Join (s :: s' :: rest) sep = s ++ sep ++ Join (s' :: rest) sep.
Proof. reflexivity. Qed.

(** On non-empty sequences of NUL-free segments the NUL-joined key
    determines the segments. *)
Lemma Join_NUL_inj (segs1 : list string) : ∀ segs2 : list string,
  segs1 ≠ [] → segs2 ≠ [] →
  Forall (fun s => hasNUL s = false) segs1 →
  Forall (fun s => hasNUL s = false) segs2 →
  Join segs1 NUL = Join segs2 NUL → segs1 = segs2.
Proof.
  induction segs1 as [|a [|a' rest1] IH]; intros [|b [|b' rest2]] Hne1 Hne2 H1 H2 Heq;
    try contradiction.
  - simpl in Heq. congruence.
  - rewrite Join_cons2 in Heq. simpl Join in Heq.
    apply Forall_inv in H1.
    rewrite Heq, hasNUL_app_NUL in H1. discriminate.
  - rewrite Join_cons2 in Heq. simpl Join in Heq.
    apply Forall_inv in H2.
    rewrite <- Heq, hasNUL_app_NUL in H2. discriminate.
  - rewrite !Join_cons2 in Heq.
    pose proof (Forall_inv H1) as Ha. pose proof (Forall_inv_tail H1) as H1'.
    pose proof (Forall_inv H2) as Hb. pose proof (Forall_inv_tail H2) as H2'.
    simpl in Ha, Hb.
    destruct (app_NUL_split _ _ _ _ Ha Hb Heq) as [-> Hrest].
    f_equal. apply IH; auto; discriminate.
Qed.

(** Segments that hold NUL bytes can collide: the
    sequences ["a\x00", "b"] and ["a", "\x00b"] differ only in where the
    boundary is, their keys are both "a\x00\x00b", and the records match. *)
Lemma txt_key_collision_with_NUL :
  let segs1 := ["a" ++ NUL; "b"] in
  let segs2 := ["a"; NUL ++ "b"] in
  segs1 ≠ segs2 ∧
  concatSegments segs1 = concatSegments segs2 ∧
  Join segs1 NUL = Join segs2 NUL ∧
  checkTXTRecord [RR_TXT (mkHeader 16 300) segs2] [mkRecord "TXT" "@" 300 "" "" 0 segs1]
    = Ret tt.
Proof.
  cbv zeta. split; [discriminate|]. split; [reflexivity|]. split; [reflexivity|].
  vm_compute. reflexivity.
Qed.

(** C5 (amended): the TXT key is the segments joined with a NUL separator;
    two TXT records whose segment sequences are non-empty, hold no NUL byte
    and differ (in particular, differ only in segment boundaries) have
    different keys.  For ["ab", "c"] and ["a", "bc"], which plain
    concatenation conflates, the keys are "ab\x00c" and "a\x00bc", they are
    unequal, and the records do not match. *)
Theorem txt_key_keeps_boundaries (segs1 segs2 : list string)
    (Hne1 : segs1 ≠ []) (Hne2 : segs2 ≠ [])
    (Hnul1 : Forall (fun s => hasNUL s = false) segs1)
    (Hnul2 : Forall (fun s => hasNUL s = false) segs2)
    (Hdiff : segs1 ≠ segs2) :
  Join segs1 NUL ≠ Join segs2 NUL ∧
  Join ["ab"; "c"] NUL = "ab" ++ NUL ++ "c" ∧
  Join ["a"; "bc"] NUL = "a" ++ NUL ++ "bc" ∧
  concatSegments ["ab"; "c"] = concatSegments ["a"; "bc"] ∧
  "ab" ++ NUL ++ "c" ≠ "a" ++ NUL ++ "bc" ∧
  (∀ h, checkTXTRecord [RR_TXT h ["a"; "bc"]] [mkRecord "TXT" "@" 300 "" "" 0 ["ab"; "c"]]
        = Err (ValueMismatch (StringKeys {["ab" ++ NUL ++ "c" := true]})
                             (StringKeys {["a" ++ NUL ++ "bc" := true]}))) ∧
  (∀ h, checkTXTRecord [RR_TXT h ["ab"; "c"]] [mkRecord "TXT" "@" 300 "" "" 0 ["ab"; "c"]]
        = Ret tt).
Proof.
  split; [|split; [|split; [|split; [|split; [|split]]]]].
  - intros Heq. apply Hdiff. apply Join_NUL_inj; assumption.
  - reflexivity.
  - reflexivity.
  - reflexivity.
  - discriminate.
  - intros h. vm_compute. reflexivity.
  - intros h. vm_compute. reflexivity.
Qed.

Lemma txt_key_keeps_boundaries_witness :
  Join ["v=spf1 include:"; "example.net ~all"] NUL
    ≠ Join ["v=spf1 "; "include:example.net ~all"] NUL.
Proof.
  apply (txt_key_keeps_boundaries ["v=spf1 include:"; "example.net ~all"]
           ["v=spf1 "; "include:example.net ~all"]).
  - discriminate.
  - discriminate.
  - repeat constructor.
  - repeat constructor.
  - discriminate.
Defined.

(** ** Grouping *)

Lemma recordsByNameType_foldl records :
  recordsByNameType records = foldl addRecord ∅ records.
Proof. reflexivity. Qed.

Lemma concat_Permutation {A} (l1 l2 : list (list A)) :
  l1 ≡ₚ l2 → concat l1 ≡ₚ concat l2.
Proof.
  induction 1 as [|x l1 l2 _ IH|x y l|l1 l2 l3 _ IH1 _ IH2]; simpl.
  - reflexivity.
  - rewrite IH. reflexivity.
  - rewrite !app_assoc. rewrite (Permutation_app_comm y x). reflexivity.
  - etransitivity; eassumption.
Qed.

Lemma members_addRecord m r : members (addRecord m r) ≡ₚ members m ++ [r].
Proof.
  unfold members, addRecord. set (nt := (Name r, Type_ r)).
  destruct (m !! nt) as [g|] eqn:Hnt; simpl.
  - rewrite <- insert_delete_eq.
    rewrite (concat_Permutation _ _
               (fmap_Permutation snd _ _
                  (map_to_list_insert (delete nt m) nt (g ++ [r])%list
                     (lookup_delete_eq m nt)))).
    rewrite <- (concat_Permutation _ _
                  (fmap_Permutation snd _ _ (map_to_list_delete m nt g Hnt))).
    simpl. rewrite <- !app_assoc.
    apply Permutation_app_head, Permutation_app_comm.
  - rewrite (concat_Permutation _ _
               (fmap_Permutation snd _ _ (map_to_list_insert m nt [r] Hnt))).
    simpl. apply Permutation_cons_append.
Qed.

Lemma members_foldl records : ∀ m,
  members (foldl addRecord m records) ≡ₚ members m ++ records.
Proof.
  induction records as [|r records IH]; intros m; simpl.
  - rewrite app_nil_r. reflexivity.
  - rewrite IH, members_addRecord, <- app_assoc. reflexivity.
Qed.

Lemma wellGrouped_addRecord m r :
  map_Forall wellGrouped m → map_Forall wellGrouped (addRecord m r).
Proof.
  intros Hm. unfold addRecord. apply map_Forall_insert_2; [|exact Hm].
  split.
  - destruct (default [] _); discriminate.
  - apply Forall_app. split; [|repeat constructor].
    destruct (m !! (Name r, Type_ r)) as [g|] eqn:Hnt; simpl; [|constructor].
    apply (Hm _ _ Hnt).
Qed.

Lemma wellGrouped_foldl records : ∀ m,
  map_Forall wellGrouped m → map_Forall wellGrouped (foldl addRecord m records).
Proof.
  induction records as [|r records IH]; intros m Hm; simpl; [exact Hm|].
  apply IH, wellGrouped_addRecord, Hm.
Qed.

Lemma groups_wellGrouped records :
  Forall (fun g => ∃ nt, wellGrouped nt g) (groups records).
Proof.
  unfold groups. apply Forall_fmap.
  pose proof (wellGrouped_foldl records ∅ (map_Forall_empty _)) as Hall.
  rewrite <- recordsByNameType_foldl in Hall.
  apply map_Forall_to_list in Hall.
  eapply Forall_impl; [exact Hall|].
  intros [nt g] Hg. exists nt. exact Hg.
Qed.

Lemma groups_nonempty records g : g ∈ groups records → g ≠ [].
Proof.
  intros Hin.
  pose proof (groups_wellGrouped records) as Hall.
  rewrite Forall_forall in Hall. destruct (Hall g Hin) as (nt & Hne & _). exact Hne.
Qed.

(** C2: the groups of a domain's records hold, taken together, exactly the
    records of the input (as a multiset: none lost, none duplicated); every
    group is non-empty; the members of a group share one type and one
    absolutized name. *)
Theorem grouping_partition (domain : string) (records : list record) :
  concat (groups records) ≡ₚ records ∧
  Forall (fun g =>
            g ≠ [] ∧
            ∃ name typ, Forall (fun r => Type_ r = typ ∧
                                         absolutize domain (Name r) = name) g)
         (groups records).
Proof.
  split.
  - pose proof (members_foldl records ∅) as Hperm.
    unfold members in Hperm at 2. rewrite map_to_list_empty in Hperm.
    exact Hperm.
  - eapply Forall_impl; [apply groups_wellGrouped|].
    intros g ([name typ] & Hne & Hall). split; [exact Hne|].
    exists (absolutize domain name), typ.
    eapply Forall_impl; [exact Hall|].
    simpl. intros r [-> ->]. auto.
Qed.

Example groups_example :
  groups [mkRecord "A" "@" 300 "1.1.1.1" "" 0 [];
          mkRecord "TXT" "@" 300 "" "" 0 ["x"];
          mkRecord "A" "@" 300 "2.2.2.2" "" 0 []]
  = [[mkRecord "A" "@" 300 "1.1.1.1" "" 0 []; mkRecord "A" "@" 300 "2.2.2.2" "" 0 []];
     [mkRecord "TXT" "@" 300 "" "" 0 ["x"]]].
Proof. vm_compute. reflexivity. Qed.

Example groups_empty : groups [] = [].
Proof. reflexivity. Qed.

(** ** The orchestrator *)

(** One goroutine on a non-empty group: one outcome is appended, and the
    flag becomes true on a failure and is otherwise left as it was. *)
Lemma checkRecord_step net g w :
  g_records g ≠ [] →
  checkRecord (net g) (g_ns g) (g_domain g) (g_records g) w =
    Some (mkWorld (failed w || isFailure (outcomeOf net g))
                  (reported w ++ [outcomeOf net g])).
Proof.
  intros Hne. unfold checkRecord, outcomeOf.
  destruct (g_records g) as [|records0 rest] eqn:Hrecords; [contradiction|].
  pose proof (doCheckRecord_no_panic (net g) (g_ns g) (g_domain g)
                (absolutize (g_domain g) (Name records0)) (records0 :: rest) Hne) as Hnp.
  destruct (doCheckRecord _ _ _ _ _) as [[]|e|]; simpl.
  - rewrite orb_false_r. reflexivity.
  - rewrite orb_true_r. reflexivity.
  - contradiction.
Qed.

(** All goroutines of a schedule, from any state. *)
Lemma wait_run net sched : ∀ w,
  Forall (fun g => g_records g ≠ []) sched →
  wait net sched w =
    Some (mkWorld (failed w || existsb isFailure (outcomeOf net <$> sched))
                  (reported w ++ (outcomeOf net <$> sched))).
Proof.
  induction sched as [|g sched IH]; intros [f r] Hne; simpl.
  - rewrite orb_false_r, app_nil_r. reflexivity.
  - rewrite (checkRecord_step net g _ (Forall_inv Hne)).
    rewrite (IH _ (Forall_inv_tail Hne)). simpl.
    rewrite <- app_assoc, orb_assoc. reflexivity.
Qed.

Lemma launches_nonempty domains :
  Forall (fun g => g_records g ≠ []) (launches domains).
Proof.
  apply Forall_forall. intros g Hg. unfold launches in Hg.
  apply list_elem_of_bind in Hg as (d & Hg & _).
  apply list_elem_of_bind in Hg as (records & Hg & Hrecords).
  apply list_elem_of_bind in Hg as (ns & Hg & _).
  apply list_elem_of_singleton in Hg. subst g. simpl.
  eapply groups_nonempty, Hrecords.
Qed.

Lemma length_bind_sum {A B} (f : A → list B) (l : list A) :
  length (l ≫= f) = sum_list_with (fun x => length (f x)) l.
Proof.
  induction l as [|x l IH]; [reflexivity|].
  rewrite bind_cons, length_app, IH. reflexivity.
Qed.

(** One goroutine is launched per group and nameserver. *)
Lemma launches_length domains :
  length (launches domains) =
    sum_list_with (fun d => length (groups (Records d)) * length nss)%nat domains.
Proof.
  unfold launches. rewrite length_bind_sum.
  induction domains as [|d domains IH]; [reflexivity|].
  cbn [sum_list_with]. rewrite IH. f_equal.
  rewrite length_bind_sum.
  induction (groups (Records d)) as [|g gs IHg]; [reflexivity|].
  cbn [sum_list_with length]. rewrite IHg. reflexivity.
Qed.

Lemma existsb_isFailure outcomes :
  existsb isFailure outcomes = true ↔ Exists (fun o => isFailure o = true) outcomes.
Proof.
  rewrite existsb_exists, Exists_exists.
  split; intros (o & Ho1 & Ho2); exists o; split; auto; apply list_elem_of_In; auto.
Qed.

(** A goroutine never clears the flag. *)
Lemma checkRecord_monotone client ns domain records w w' :
  checkRecord client ns domain records w = Some w' →
  failed w = true → failed w' = true.
Proof.
  unfold checkRecord. destruct records as [|records0 rest]; [discriminate|].
  destruct (doCheckRecord _ _ _ _ _); intros [= <-]; auto.
Qed.

Lemma wait_monotone net sched : ∀ w w',
  wait net sched w = Some w' → failed w = true → failed w' = true.
Proof.
  induction sched as [|g sched IH]; simpl; intros w w' Hrun Hw.
  - injection Hrun as <-. exact Hw.
  - destruct (checkRecord _ _ _ _ w) as [w1|] eqn:Hstep; [|discriminate].
    eapply IH; [exact Hrun|]. eapply checkRecord_monotone; eassumption.
Qed.

Lemma wait_app net s1 s2 w :
  wait net (s1 ++ s2) w =
    match wait net s1 w with
    | Some w1 => wait net s2 w1
    | None => None
    end.
Proof.
  revert w. induction s1 as [|g s1 IH]; intros w; simpl; [reflexivity|].
  destruct (checkRecord _ _ _ _ w); [apply IH | reflexivity].
Qed.

(** C7: for any order [sched] in which the launched goroutines complete,
    the run ends (no goroutine panics) in a state [w] where
    - every launched (nameserver, group) pair has reported exactly one
      outcome, failures included: the outcomes are those of the goroutines,
      one per group and nameserver;
    - the flag is true exactly when some outcome is a failure;
    - the flag, once true after a part of the schedule, is true at the end,
      and no goroutine clears it;
    - the exit status is 0 exactly when no outcome is a failure. *)
Theorem orchestrator_aggregation (net : goroutine → Client) (domains : list Domain)
    (sched : list goroutine) (Hsched : sched ≡ₚ launches domains) :
  ∃ w : world,
    main net sched = Some (w, exitStatus w) ∧
    reported w = outcomeOf net <$> sched ∧
    reported w ≡ₚ outcomeOf net <$> launches domains ∧
    length (reported w) =
      sum_list_with (fun d => length (groups (Records d)) * length nss)%nat domains ∧
    (failed w = true ↔ Exists (fun o => isFailure o = true) (reported w)) ∧
    (∀ s1 s2 w1, sched = (s1 ++ s2)%list → wait net s1 world0 = Some w1 →
                 failed w1 = true → failed w = true) ∧
    (∀ g w1 w2, checkRecord (net g) (g_ns g) (g_domain g) (g_records g) w1 = Some w2 →
                failed w1 = true → failed w2 = true) ∧
    (exitStatus w = 0 ↔ Forall (fun o => isFailure o = false) (reported w)).
Proof.
  assert (Hne : Forall (fun g => g_records g ≠ []) sched).
  { rewrite Hsched. apply launches_nonempty. }
  pose proof (wait_run net sched world0 Hne) as Hrun. simpl in Hrun.
  set (w := mkWorld (existsb isFailure (outcomeOf net <$> sched))
                    (outcomeOf net <$> sched)) in *.
  exists w. unfold main. rewrite Hrun.
  split; [reflexivity|]. split; [reflexivity|].
  split; [simpl; rewrite Hsched; reflexivity|].
  split; [simpl; rewrite length_fmap, Hsched; apply launches_length|].
  split; [apply existsb_isFailure|].
  split; [|split].
  - intros s1 s2 w1 Hsplit Hw1 Hfailed.
    rewrite Hsplit, wait_app, Hw1 in Hrun.
    eapply wait_monotone; eassumption.
  - intros g w1 w2. apply checkRecord_monotone.
  - unfold exitStatus. simpl.
    destruct (existsb isFailure (outcomeOf net <$> sched)) eqn:Hex.
    + split; [discriminate|]. intros Hall.
      apply existsb_isFailure, Exists_exists in Hex as (o & Hin & Ho).
      rewrite Forall_forall in Hall. rewrite (Hall o Hin) in Ho. discriminate.
    + split; [|reflexivity]. intros _.
      apply Forall_forall. intros o Hin.
      destruct (isFailure o) eqn:Ho; [|reflexivity].
      assert (Hex' : existsb isFailure (outcomeOf net <$> sched) = true).
      { apply existsb_isFailure, Exists_exists. eauto. }
      congruence.
Qed.

(** Six outcomes, two of them failures, exit status 1. *)
Example example_run :
  main exampleNet (reverse (launches exampleDomains)) =
    Some (mkWorld true
            [Success; Success;
             Failure "MX" "example.com" "1.1.1.1:53" (NonSuccessRcode 2);
             Success;
             Failure "TXT" "www.example.com" "1.1.1.1:53" (NonSuccessRcode 2);
             Success], 1).
Proof. vm_compute. reflexivity. Qed.

Lemma orchestrator_aggregation_witness :
  reverse (launches exampleDomains) ≡ₚ launches exampleDomains ∧
  ∃ w : world,
    main exampleNet (reverse (launches exampleDomains)) = Some (w, exitStatus w) ∧
    reported w = outcomeOf exampleNet <$> reverse (launches exampleDomains) ∧
    (failed w = true ↔ Exists (fun o => isFailure o = true) (reported w)) ∧
    (exitStatus w = 0 ↔ Forall (fun o => isFailure o = false) (reported w)).
Proof.
  split; [apply reverse_Permutation|].
  destruct (orchestrator_aggregation exampleNet exampleDomains
              (reverse (launches exampleDomains))
              (reverse_Permutation (launches exampleDomains)))
    as (w & Hmain & Hrep & _ & _ & Hflag & _ & _ & Hexit).
  exists w. auto.
Defined.

(** * Further properties *)

(** ** What a validator reads and when it succeeds *)

Section ValidatorReads.
Context `{Countable K}.
Variable typeName : string.
Variable expectedKey : record -> K.
Variable actualKey : RR -> option K.
Variable keys : gmap K bool -> keyset.

Lemma actualValuesLoop_take actualRecords todo : ∀ i actualValues,
  actualValuesLoop typeName actualKey (take (i + todo) actualRecords) todo i actualValues =
  actualValuesLoop typeName actualKey actualRecords todo i actualValues.
Proof.
  induction todo as [|todo IH]; intros i acc; simpl; [reflexivity|].
  rewrite lookup_take_lt by lia.
  destruct (actualRecords !! i) as [rr|]; [|reflexivity].
  destruct (actualKey rr) as [k|]; [|reflexivity].
  replace (i + S todo)%nat with (S i + todo)%nat by lia. apply IH.
Qed.

(** X1: a validator examines only the first [len(expectedValues)] answers:
    its result is the one it gives on that prefix of the answers. *)
Theorem validator_reads_prefix (actualRecords : list RR) (expectedRecords : list record) :
  checkValues typeName expectedKey actualKey keys actualRecords expectedRecords =
  checkValues typeName expectedKey actualKey keys
    (take (size (expectedValuesOf expectedKey expectedRecords)) actualRecords)
    expectedRecords.
Proof.
  unfold checkValues. cbv zeta.
  rewrite <- (actualValuesLoop_take actualRecords _ 0). reflexivity.
Qed.

Lemma actualValuesLoop_Ret_inv actualRecords todo : ∀ i acc av,
  actualValuesLoop typeName actualKey actualRecords todo i acc = Ret av →
  ∃ ks, Forall2 (fun rr k => actualKey rr = Some k) (take todo (drop i actualRecords)) ks ∧
        length ks = todo ∧ av = insertAll acc ks.
Proof.
  induction todo as [|todo IH]; intros i acc av Hloop; simpl in Hloop.
  - injection Hloop as <-. exists []. rewrite take_0. repeat split. constructor.
  - destruct (actualRecords !! i) as [rr|] eqn:Hrr; [|discriminate].
    destruct (actualKey rr) as [k|] eqn:Hk; [|discriminate].
    destruct (IH _ _ _ Hloop) as (ks & Hks & Hlen & ->).
    exists (k :: ks). rewrite (drop_S _ _ _ Hrr). simpl.
    split; [constructor; assumption|]. split; [congruence | reflexivity].
Qed.

Lemma actualValuesLoop_Ret_prefix actualRecords todo : ∀ i acc ks,
  Forall2 (fun rr k => actualKey rr = Some k) (take todo (drop i actualRecords)) ks →
  length ks = todo →
  actualValuesLoop typeName actualKey actualRecords todo i acc = Ret (insertAll acc ks).
Proof.
  induction todo as [|todo IH]; intros i acc ks Hks Hlen; simpl.
  - destruct ks; [reflexivity | discriminate].
  - destruct ks as [|k ks]; [discriminate|].
    destruct (actualRecords !! i) as [rr|] eqn:Hrr.
    + rewrite (drop_S _ _ _ Hrr) in Hks. simpl in Hks.
      apply Forall2_cons in Hks as [Hk Hks]. rewrite Hk.
      change (insertAll acc (k :: ks)) with (insertAll (<[k := true]> acc) ks).
      apply IH; [exact Hks | simpl in Hlen; congruence].
    + apply lookup_ge_None in Hrr. rewrite drop_ge in Hks by exact Hrr.
      inversion Hks.
Qed.

(** The expected map has one entry per distinct expected key. *)
Lemma expectedValuesOf_size_distinct expectedRecords :
  size (expectedValuesOf expectedKey expectedRecords) =
    length (remove_dups (expectedKey <$> expectedRecords)).
Proof.
  rewrite expectedValuesOf_insertAll.
  assert (Heq : insertAll ∅ (expectedKey <$> expectedRecords) =
                insertAll ∅ (remove_dups (expectedKey <$> expectedRecords))).
  { apply insertAll_eq, set_eq. intros k.
    rewrite !elem_of_list_to_set, elem_of_remove_dups. reflexivity. }
  rewrite Heq, insertAll_size_NoDup.
  - rewrite map_size_empty. reflexivity.
  - apply NoDup_remove_dups.
  - intros. apply lookup_empty.
Qed.

(** X2: a validator succeeds exactly when the first n answers, n the number
    of distinct expected keys, all have the asserted type and their keys are
    the distinct expected keys, each once, in any order. *)
Theorem validator_success_iff (actualRecords : list RR) (expectedRecords : list record) :
  checkValues typeName expectedKey actualKey keys actualRecords expectedRecords = Ret tt ↔
  ∃ ks : list K,
    Forall2 (fun rr k => actualKey rr = Some k)
      (take (length (remove_dups (expectedKey <$> expectedRecords))) actualRecords) ks ∧
    ks ≡ₚ remove_dups (expectedKey <$> expectedRecords).
Proof.
  unfold checkValues. cbv zeta.
  rewrite expectedValuesOf_size_distinct, expectedValuesOf_insertAll.
  set (eks := expectedKey <$> expectedRecords).
  assert (Hsets : ∀ ks : list K, insertAll ∅ eks = insertAll ∅ ks ↔
                           ∀ k, k ∈ remove_dups eks ↔ k ∈ ks).
  { intros ks. rewrite insertAll_eq, set_eq.
    setoid_rewrite elem_of_list_to_set. setoid_rewrite elem_of_remove_dups.
    reflexivity. }
  split.
  - destruct (actualValuesLoop _ _ _ _ _ _) as [av| |] eqn:Hloop; simpl;
      [|discriminate|discriminate].
    destruct (maps_Equal _ av) eqn:Heq; simpl; [|discriminate]. intros _.
    apply maps_Equal_spec in Heq.
    apply actualValuesLoop_Ret_inv in Hloop as (ks & Hks & Hlen & ->).
    rewrite drop_0 in Hks. exists ks. split; [exact Hks|].
    symmetry. apply submseteq_length_Permutation; [|lia].
    apply NoDup_submseteq; [apply NoDup_remove_dups|].
    intros k Hk. apply (Hsets ks); assumption.
  - intros (ks & Hks & Hperm).
    rewrite (actualValuesLoop_Ret_prefix actualRecords _ 0 ∅ ks);
      [|rewrite drop_0; exact Hks | rewrite Hperm; reflexivity].
    simpl.
    assert (Heq : insertAll ∅ eks = insertAll ∅ ks).
    { apply Hsets. intros k. rewrite Hperm. reflexivity. }
    apply maps_Equal_spec in Heq. rewrite Heq. reflexivity.
Qed.

Lemma actualValuesLoop_wrong_type pre rr post todo : ∀ i acc,
  Forall (fun a => is_Some (actualKey a)) pre →
  actualKey rr = None →
  (i ≤ length pre < i + todo)%nat →
  actualValuesLoop typeName actualKey (pre ++ rr :: post) todo i acc =
    Err (WrongType typeName (Rrtype (Header rr))).
Proof.
  induction todo as [|todo IH]; intros i acc Hpre Hrr Hi; simpl; [lia|].
  destruct (decide (i = length pre)) as [->|Hne].
  - rewrite list_lookup_middle by reflexivity. rewrite Hrr. reflexivity.
  - destruct (lookup_lt_is_Some_2 pre i) as [a Ha]; [lia|].
    rewrite lookup_app_l by lia. rewrite Ha.
    rewrite Forall_forall in Hpre.
    destruct (Hpre a) as [k Hk]; [eapply list_elem_of_lookup_2; eauto|].
    rewrite Hk. apply IH; [apply Forall_forall; exact Hpre | exact Hrr | lia].
Qed.

(** X3: when an answer among those examined does not have the asserted type
    and the answers before it do, the validator fails with the wrong-type
    error naming the asserted type and that answer's type code; no value is
    compared. *)
Theorem validator_wrong_type (pre post : list RR) (rr : RR) (expectedRecords : list record)
    (Hpre : Forall (fun a => is_Some (actualKey a)) pre)
    (Hrr : actualKey rr = None)
    (Hread : (length pre < size (expectedValuesOf expectedKey expectedRecords))%nat) :
  checkValues typeName expectedKey actualKey keys (pre ++ rr :: post) expectedRecords =
    Err (WrongType typeName (Rrtype (Header rr))).
Proof.
  unfold checkValues. cbv zeta.
  rewrite (actualValuesLoop_wrong_type pre rr post _ 0 ∅ Hpre Hrr) by lia.
  reflexivity.
Qed.

Lemma typed_answers_keys (actualRecords : list RR) :
  Forall (fun a => is_Some (actualKey a)) actualRecords →
  Forall2 (fun rr k => actualKey rr = Some k) actualRecords (omap actualKey actualRecords).
Proof.
  induction 1 as [|a l [k Hk] _ IH]; simpl; [constructor|].
  rewrite Hk. constructor; assumption.
Qed.

(** X4: for a group with pairwise distinct keys and as many answers, all of
    the asserted type, the validator's result does not depend on the order
    of the answers nor on the order of the expected records. *)
Theorem validator_order_independent (actualRecords actualRecords' : list RR)
    (expectedRecords expectedRecords' : list record)
    (Hdistinct : NoDup (expectedKey <$> expectedRecords))
    (Hcount : length actualRecords = length expectedRecords)
    (Htyped : Forall (fun a => is_Some (actualKey a)) actualRecords)
    (Hactual : actualRecords' ≡ₚ actualRecords)
    (Hexpected : expectedRecords' ≡ₚ expectedRecords) :
  checkValues typeName expectedKey actualKey keys actualRecords' expectedRecords' =
  checkValues typeName expectedKey actualKey keys actualRecords expectedRecords.
Proof.
  rewrite (checkValues_distinct_keys typeName expectedKey actualKey keys
             actualRecords expectedRecords (omap actualKey actualRecords)
             Hdistinct Hcount (typed_answers_keys _ Htyped)).
  rewrite (checkValues_distinct_keys typeName expectedKey actualKey keys
             actualRecords' expectedRecords' (omap actualKey actualRecords')).
  - assert (He : (list_to_set (expectedKey <$> expectedRecords') : gset K) =
                 list_to_set (expectedKey <$> expectedRecords))
      by (rewrite Hexpected; reflexivity).
    assert (Ha : (list_to_set (omap actualKey actualRecords') : gset K) =
                 list_to_set (omap actualKey actualRecords))
      by (rewrite Hactual; reflexivity).
    rewrite (proj2 (insertAll_eq _ _) He), (proj2 (insertAll_eq _ _) Ha), He, Ha.
    reflexivity.
  - rewrite Hexpected. exact Hdistinct.
  - rewrite Hactual, Hexpected. exact Hcount.
  - apply typed_answers_keys. rewrite Hactual. exact Htyped.
Qed.
End ValidatorReads.

(** A wrong-typed second answer: the CNAME of an alias chain in front of the
    mail exchanger. *)
Lemma validator_wrong_type_witness :
  checkMXRecord
    [RR_MX (mkHeader 15 60) 10 "mx1.example.com."; RR_CNAME (mkHeader 5 60) "other.example.";
     RR_MX (mkHeader 15 60) 30 "mx3.example.com."]
    [mkRecord "MX" "@" 300 "mx1.example.com." "" 10 [];
     mkRecord "MX" "@" 300 "mx2.example.com." "" 20 [];
     mkRecord "MX" "@" 300 "mx3.example.com." "" 30 []]
  = Err (WrongType "MX" 5).
Proof.
  apply (validator_wrong_type "MX" (fun r => (MXPreference r, Target r))
           (fun rr => match rr with RR_MX _ p m => Some (p, m) | _ => None end) MXKeys
           [RR_MX (mkHeader 15 60) 10 "mx1.example.com."]
           [RR_MX (mkHeader 15 60) 30 "mx3.example.com."]
           (RR_CNAME (mkHeader 5 60) "other.example.")).
  - repeat constructor. simpl. eauto.
  - reflexivity.
  - vm_compute. lia.
Defined.

Lemma validator_order_independent_witness :
  let expected := [mkRecord "CAA" "@" 300 "letsencrypt.org" "issue" 0 [];
                   mkRecord "CAA" "@" 300 "mailto:ca@example.com" "iodef" 0 []] in
  let a1 := RR_CAA (mkHeader 257 60) 0 "issue" "letsencrypt.org" in
  let a2 := RR_CAA (mkHeader 257 60) 0 "iodef" "mailto:ca@example.com" in
  checkCAARecord [a2; a1] (reverse expected) = checkCAARecord [a1; a2] expected.
Proof.
  intros expected a1 a2.
  apply (validator_order_independent "CAA" (fun r => (CAATag r, Target r))
           (fun rr => match rr with RR_CAA _ _ tag value => Some (tag, value) | _ => None end)
           CAAKeys [a1; a2] [a2; a1] expected (reverse expected)).
  - apply NoDup_cons. split; [|apply NoDup_singleton].
    intros Hin. apply list_elem_of_singleton in Hin. discriminate Hin.
  - reflexivity.
  - repeat constructor; simpl; eauto.
  - apply perm_swap.
  - apply reverse_Permutation.
Defined.

(** ** Single records *)

Lemma checkValues_single `{Countable K} typeName (expectedKey : record → K)
    actualKey keys (rr : RR) (r : record) (k : K) :
  actualKey rr = Some k →
  checkValues typeName expectedKey actualKey keys [rr] [r] = Ret tt ↔ k = expectedKey r.
Proof.
  intros Hk.
  rewrite (checkValues_distinct_keys typeName expectedKey actualKey keys [rr] [r] [k]).
  - destruct (decide _) as [Heq|Hne].
    + split; [|reflexivity]. intros _.
      assert (Hin : k ∈ (list_to_set (expectedKey <$> [r]) : gset K)).
      { rewrite Heq. apply elem_of_list_to_set. left. }
      apply elem_of_list_to_set, list_elem_of_singleton in Hin. exact Hin.
    + split; [discriminate|]. intros ->. exfalso. apply Hne. reflexivity.
  - apply NoDup_singleton.
  - reflexivity.
  - repeat constructor. exact Hk.
Qed.

(** X5: one expected record against one answer of its type, for each of the
    six validators: A, AAAA and CNAME compare the target; CAA compares tag
    and value and not the flag; MX compares preference and exchange; TXT
    compares the NUL-joined segments.  The answer's header is not looked at,
    nor any other field of the expected record. *)
Theorem single_record_match (h : RR_Header) (r : record) :
  (∀ a, checkARecord [RR_A h a] [r] = Ret tt ↔ a = Target r) ∧
  (∀ a, checkAAAARecord [RR_AAAA h a] [r] = Ret tt ↔ a = Target r) ∧
  (∀ t, checkCNAMERecord [RR_CNAME h t] [r] = Ret tt ↔ t = Target r) ∧
  (∀ flag tag value,
     checkCAARecord [RR_CAA h flag tag value] [r] = Ret tt ↔
     tag = CAATag r ∧ value = Target r) ∧
  (∀ preference exchange,
     checkMXRecord [RR_MX h preference exchange] [r] = Ret tt ↔
     preference = MXPreference r ∧ exchange = Target r) ∧
  (∀ txt, checkTXTRecord [RR_TXT h txt] [r] = Ret tt ↔
          Join txt NUL = Join (TXTStrings r) NUL).
Proof.
  split; [|split; [|split; [|split; [|split]]]]; intros;
    (etransitivity; [apply checkValues_single; reflexivity|]);
    unfold IP_String; simpl; try reflexivity.
  - split; [intros [= -> ->]; auto | intros [-> ->]; reflexivity].
  - split; [intros [= -> ->]; auto | intros [-> ->]; reflexivity].
Qed.

(** ** The order of the checks in [doCheckRecord] *)

Lemma dispatch_unknown recordType answers records :
  ¬ In recordType supportedTypes →
  dispatch recordType answers records = Err UnknownType.
Proof.
  intros Hnot. unfold dispatch.
  repeat match goal with
         | |- context [String.eqb recordType ?t] =>
             destruct (String.eqb_spec recordType t) as [->|_];
             [exfalso; apply Hnot; simpl; tauto|]
         end.
  reflexivity.
Qed.

Lemma dispatch_Ret_supported recordType answers records :
  dispatch recordType answers records = Ret tt → In recordType supportedTypes.
Proof.
  unfold dispatch.
  repeat match goal with
         | |- context [String.eqb recordType ?t] =>
             destruct (String.eqb_spec recordType t) as [->|_];
             [intros _; simpl; tauto|]
         end.
  discriminate.
Qed.

(** X6: a group whose type has no validator is still queried and its answers
    counted and their TTLs checked; when all of that passes the check fails
    with the unknown-type error, so such a group never passes. *)
Theorem unknown_type_never_passes (client : Client) (ns domain name : string)
    (records0 : record) (rest : list record)
    (Hunknown : ¬ In (Type_ records0) supportedTypes) :
  doCheckRecord client ns domain name (records0 :: rest) =
    (let* resp := query client ns name (Type_ records0) in
     if negb (length (records0 :: rest) =? length (Answer resp))%nat
     then Err (CountMismatch (length (records0 :: rest)) (length (Answer resp)))
     else let* _ := ttlLoop (TTL records0) (Answer resp) in Err UnknownType) ∧
  doCheckRecord client ns domain name (records0 :: rest) ≠ Ret tt.
Proof.
  assert (Heq : doCheckRecord client ns domain name (records0 :: rest) =
    (let* resp := query client ns name (Type_ records0) in
     if negb (length (records0 :: rest) =? length (Answer resp))%nat
     then Err (CountMismatch (length (records0 :: rest)) (length (Answer resp)))
     else let* _ := ttlLoop (TTL records0) (Answer resp) in Err UnknownType)).
  { unfold doCheckRecord.
    destruct (query client ns name (Type_ records0)) as [m| |]; cbn [bind]; try reflexivity.
    destruct (negb _); [reflexivity|].
    destruct (ttlLoop _ _) as [[]| |]; cbn [bind]; try reflexivity.
    apply dispatch_unknown, Hunknown. }
  split; [exact Heq|]. rewrite Heq.
  destruct (query client ns name (Type_ records0)) as [m| |]; cbn [bind]; try discriminate.
  destruct (negb _); [discriminate|].
  destruct (ttlLoop _ _) as [[]| |]; cbn [bind]; discriminate.
Qed.

Lemma unknown_type_never_passes_witness :
  let client : Client := fun _ _ _ =>
    mkExchanged (Some (mkMsg 0 [RR_Other (mkHeader 33 60)])) None in
  doCheckRecord client "8.8.8.8:53" "example.com" "_sip._tcp.example.com"
    [mkRecord "SRV" "_sip._tcp" 300 "sip.example.com." "" 0 []] ≠ Ret tt.
Proof.
  intros client.
  apply (unknown_type_never_passes client "8.8.8.8:53" "example.com" "_sip._tcp.example.com"
           (mkRecord "SRV" "_sip._tcp" 300 "sip.example.com." "" 0 []) []).
  simpl. intros Hin.
  repeat (destruct Hin as [Hin|Hin]; [discriminate Hin|]). exact Hin.
Defined.

Lemma query_Ret_inv client ns name queryType m :
  query client ns name queryType = Ret m →
  client ns name queryType = mkExchanged (Some m) None ∧ Rcode m = RcodeSuccess.
Proof.
  unfold query. destruct (client ns name queryType) as [[m0|] [e|]]; simpl;
    try discriminate.
  destruct (Z.eqb_spec (Rcode m0) RcodeSuccess) as [Hrc|]; simpl; [|discriminate].
  intros [= <-]. auto.
Qed.

Lemma ttlLoop_Ret_inv ttl0 answers :
  ttlLoop ttl0 answers = Ret tt →
  Forall (fun a => Ttl (Header a) <= uint32 ttl0) answers.
Proof.
  induction answers as [|a answers IH]; simpl; [constructor|].
  destruct (Z.gtb_spec (Ttl (Header a)) (uint32 ttl0)); [discriminate|].
  intros Hrest. constructor; [lia | auto].
Qed.

(** X7: a check passes only if the group is not empty, the exchange handed
    back a message and no error, the status is success, there are as many
    answers as expected records, no answer's TTL is above the converted
    ceiling of the first member, the first member's type has a validator and
    that validator accepts the answers. *)
Theorem check_passes_only_if (client : Client) (ns domain name : string)
    (records : list record)
    (Hpass : doCheckRecord client ns domain name records = Ret tt) :
  ∃ (records0 : record) (rest : list record) (m : Msg),
    records = records0 :: rest ∧
    client ns name (Type_ records0) = mkExchanged (Some m) None ∧
    Rcode m = RcodeSuccess ∧
    length records = length (Answer m) ∧
    Forall (fun a => Ttl (Header a) <= uint32 (TTL records0)) (Answer m) ∧
    In (Type_ records0) supportedTypes ∧
    dispatch (Type_ records0) (Answer m) records = Ret tt.
Proof.
  destruct records as [|records0 rest]; [discriminate|].
  unfold doCheckRecord in Hpass.
  destruct (query client ns name (Type_ records0)) as [m| |] eqn:Hq;
    cbn [bind] in Hpass; try discriminate.
  apply query_Ret_inv in Hq as [Hx Hrc].
  destruct (Nat.eqb_spec (length (records0 :: rest)) (length (Answer m))) as [Hlen|];
    cbn [negb] in Hpass; [|discriminate].
  destruct (ttlLoop (TTL records0) (Answer m)) as [[]| |] eqn:Httl;
    cbn [bind] in Hpass; try discriminate.
  exists records0, rest, m.
  repeat split; auto using ttlLoop_Ret_inv.
  eapply dispatch_Ret_supported, Hpass.
Qed.

Lemma check_passes_only_if_witness :
  let client : Client := fun _ _ _ =>
    mkExchanged (Some (mkMsg 0 [RR_A (mkHeader 1 60) "2.2.2.2";
                                RR_A (mkHeader 1 60) "1.1.1.1"])) None in
  let records := [mkRecord "A" "@" 300 "1.1.1.1" "" 0 [];
                  mkRecord "A" "@" 300 "2.2.2.2" "" 0 []] in
  doCheckRecord client "8.8.8.8:53" "example.com" "example.com" records = Ret tt ∧
  ∃ records0 rest m,
    records = records0 :: rest ∧
    client "8.8.8.8:53" "example.com" (Type_ records0) = mkExchanged (Some m) None ∧
    Rcode m = RcodeSuccess ∧
    length records = length (Answer m) ∧
    Forall (fun a => Ttl (Header a) <= uint32 (TTL records0)) (Answer m) ∧
    In (Type_ records0) supportedTypes ∧
    dispatch (Type_ records0) (Answer m) records = Ret tt.
Proof.
  intros client records.
  assert (Hpass : doCheckRecord client "8.8.8.8:53" "example.com" "example.com" records
                  = Ret tt) by (vm_compute; reflexivity).
  split; [exact Hpass|].
  exact (check_passes_only_if client "8.8.8.8:53" "example.com" "example.com" records Hpass).
Defined.

Lemma ttlLoop_first_offender ttl0 pre a post :
  Forall (fun b => Ttl (Header b) <= uint32 ttl0) pre →
  Ttl (Header a) > uint32 ttl0 →
  ttlLoop ttl0 (pre ++ a :: post) = Err (TTLExceeded ttl0 (Ttl (Header a))).
Proof.
  intros Hpre Ha. induction Hpre as [|b pre Hb _ IH]; simpl.
  - destruct (Z.gtb_spec (Ttl (Header a)) (uint32 ttl0)); [reflexivity | lia].
  - destruct (Z.gtb_spec (Ttl (Header b)) (uint32 ttl0)); [lia | exact IH].
Qed.

(** X8: the TTL error names the declared ceiling of the first member and
    the TTL of the first answer, in answer order, that is above the converted
    ceiling. *)
Theorem ttl_error_reports_first_offender (client : Client) (ns domain name : string)
    (records0 : record) (rest : list record) (m : Msg) (pre post : list RR) (a : RR)
    (Hx : client ns name (Type_ records0) = mkExchanged (Some m) None)
    (Hrc : Rcode m = RcodeSuccess)
    (Hcount : length (records0 :: rest) = length (Answer m))
    (Hsplit : Answer m = (pre ++ a :: post)%list)
    (Hpre : Forall (fun b => Ttl (Header b) <= uint32 (TTL records0)) pre)
    (Ha : Ttl (Header a) > uint32 (TTL records0)) :
  doCheckRecord client ns domain name (records0 :: rest) =
    Err (TTLExceeded (TTL records0) (Ttl (Header a))).
Proof.
  rewrite (doCheckRecord_answered _ _ _ _ _ _ _ Hx Hrc).
  rewrite Hcount, Nat.eqb_refl. cbn [negb].
  rewrite Hsplit, (ttlLoop_first_offender _ _ _ _ Hpre Ha). reflexivity.
Qed.

Lemma ttl_error_reports_first_offender_witness :
  let client : Client := fun _ _ _ =>
    mkExchanged (Some (mkMsg 0 [RR_A (mkHeader 1 300) "1.1.1.1";
                                RR_A (mkHeader 1 600) "2.2.2.2";
                                RR_A (mkHeader 1 900) "3.3.3.3"])) None in
  doCheckRecord client "8.8.8.8:53" "example.com" "example.com"
    [mkRecord "A" "@" 300 "1.1.1.1" "" 0 []; mkRecord "A" "@" 86400 "2.2.2.2" "" 0 [];
     mkRecord "A" "@" 86400 "3.3.3.3" "" 0 []]
  = Err (TTLExceeded 300 600).
Proof.
  intros client.
  apply (ttl_error_reports_first_offender client "8.8.8.8:53" "example.com" "example.com"
           (mkRecord "A" "@" 300 "1.1.1.1" "" 0 [])
           [mkRecord "A" "@" 86400 "2.2.2.2" "" 0 []; mkRecord "A" "@" 86400 "3.3.3.3" "" 0 []]
           (mkMsg 0 [RR_A (mkHeader 1 300) "1.1.1.1"; RR_A (mkHeader 1 600) "2.2.2.2";
                     RR_A (mkHeader 1 900) "3.3.3.3"])
           [RR_A (mkHeader 1 300) "1.1.1.1"] [RR_A (mkHeader 1 900) "3.3.3.3"]
           (RR_A (mkHeader 1 600) "2.2.2.2")).
  - reflexivity.
  - reflexivity.
  - reflexivity.
  - reflexivity.
  - repeat constructor. vm_compute. discriminate.
  - vm_compute. reflexivity.
Defined.

(** ** What a check depends on *)

Lemma checkValues_keys_only `{Countable K} typeName (expectedKey : record → K)
    actualKey keys actualRecords expected1 expected2 :
  expectedKey <$> expected1 = expectedKey <$> expected2 →
  checkValues typeName expectedKey actualKey keys actualRecords expected1 =
  checkValues typeName expectedKey actualKey keys actualRecords expected2.
Proof.
  intros Hkeys. unfold checkValues.
  rewrite !expectedValuesOf_insertAll, Hkeys. reflexivity.
Qed.

Lemma sameComparedFields_fmap {B} (f : record → B) (l1 l2 : list record) :
  (∀ a b, sameComparedFields a b → f a = f b) →
  Forall2 sameComparedFields l1 l2 → f <$> l1 = f <$> l2.
Proof.
  intros Hf. induction 1 as [|a b l1 l2 Hab _ IH]; [reflexivity|].
  rewrite !fmap_cons, (Hf a b Hab), IH. reflexivity.
Qed.

Lemma dispatch_compared_fields recordType answers records1 records2 :
  Forall2 sameComparedFields records1 records2 →
  dispatch recordType answers records1 = dispatch recordType answers records2.
Proof.
  intros Hsame. unfold dispatch.
  repeat match goal with
         | |- context [String.eqb recordType ?t] => destruct (String.eqb recordType t)
         end;
    try reflexivity;
    apply checkValues_keys_only;
    apply sameComparedFields_fmap; try exact Hsame;
    intros a b (Htarget & Htag & Hpref & Htxt); congruence.
Qed.

(** X9: the result of a check depends on the group only through the type
    and the ceiling of its first member and, member by member, the fields the
    validators compare (target, CAA tag, MX preference, TXT segments).  The
    names of the members, the ceilings and types of the members after the
    first, and the domain passed along are not looked at. *)
Theorem check_ignores_other_fields (client : Client) (ns domain domain' name : string)
    (records0 records0' : record) (rest rest' : list record)
    (Htype : Type_ records0 = Type_ records0')
    (Hceiling : TTL records0 = TTL records0')
    (Hfields : Forall2 sameComparedFields (records0 :: rest) (records0' :: rest')) :
  doCheckRecord client ns domain name (records0 :: rest) =
  doCheckRecord client ns domain' name (records0' :: rest').
Proof.
  unfold doCheckRecord. rewrite <- Htype, <- Hceiling.
  rewrite (Forall2_length _ _ _ Hfields).
  destruct (query client ns name (Type_ records0)) as [m| |]; cbn [bind]; try reflexivity.
  destruct (negb _); [reflexivity|].
  destruct (ttlLoop _ _) as [[]| |]; cbn [bind]; try reflexivity.
  apply dispatch_compared_fields, Hfields.
Qed.

(** The second member's ceiling (1 instead of 300), type and name differ,
    and so does the domain. *)
Lemma check_ignores_other_fields_witness :
  let client : Client := fun _ _ _ =>
    mkExchanged (Some (mkMsg 0 [RR_A (mkHeader 1 200) "1.1.1.1";
                                RR_A (mkHeader 1 200) "2.2.2.2"])) None in
  doCheckRecord client "8.8.8.8:53" "example.com" "example.com"
    [mkRecord "A" "@" 300 "1.1.1.1" "" 0 []; mkRecord "A" "@" 300 "2.2.2.2" "" 0 []]
  = doCheckRecord client "8.8.8.8:53" "example.org" "example.com"
      [mkRecord "A" "@" 300 "1.1.1.1" "" 0 []; mkRecord "MX" "www" 1 "2.2.2.2" "" 0 []].
Proof.
  intros client.
  apply (check_ignores_other_fields client "8.8.8.8:53" "example.com" "example.org"
           "example.com").
  - reflexivity.
  - reflexivity.
  - repeat constructor.
Defined.

(** X10: when the query for the first member's type and absolutized name
    fails, the goroutine sets the flag and reports exactly one failure, with
    that type, that name, the nameserver and the error of the query as they
    are; what was reported before is kept. *)
Theorem query_failure_is_reported (client : Client) (ns domain : string)
    (records0 : record) (rest : list record) (w : world) (e : error)
    (Hquery : query client ns (absolutize domain (Name records0)) (Type_ records0) = Err e) :
  checkRecord client ns domain (records0 :: rest) w =
    Some (mkWorld true
            (reported w ++
             [Failure (Type_ records0) (absolutize domain (Name records0)) ns e])).
Proof.
  unfold checkRecord, doCheckRecord. rewrite Hquery. reflexivity.
Qed.

Lemma query_failure_is_reported_witness :
  let client : Client := fun _ _ _ => mkExchanged None (Some "i/o timeout") in
  checkRecord client "1.1.1.1:53" "example.com"
    [mkRecord "TXT" "www" 300 "" "" 0 ["v=spf1 -all"]] (mkWorld false [Success])
  = Some (mkWorld true
            [Success;
             Failure "TXT" "www.example.com" "1.1.1.1:53" (Transport "i/o timeout")]).
Proof.
  intros client.
  apply (query_failure_is_reported client "1.1.1.1:53" "example.com"
           (mkRecord "TXT" "www" 300 "" "" 0 ["v=spf1 -all"]) []
           (mkWorld false [Success]) (Transport "i/o timeout")).
  reflexivity.
Defined.

(** ** Groups *)

Lemma foldl_addRecord_lookup records : ∀ m nt,
  foldl addRecord m records !! nt =
    match filter (fun r => (Name r, Type_ r) = nt) records with
    | [] => m !! nt
    | g => Some (default [] (m !! nt) ++ g)%list
    end.
Proof.
  induction records as [|r records IH]; intros m nt; simpl; [reflexivity|].
  rewrite IH, filter_cons. unfold addRecord at 1 2.
  destruct (decide ((Name r, Type_ r) = nt)) as [<-|Hne].
  - rewrite lookup_insert_eq. simpl.
    destruct (filter _ records); simpl; [reflexivity|].
    rewrite <- app_assoc. reflexivity.
  - rewrite lookup_insert_ne by exact Hne. reflexivity.
Qed.

(** X11: the group stored under a (name, type) pair is the list of the
    input records with that name and type, in input order; a pair no record
    has is absent.  So the first member of a group, whose ceiling and name
    are used, is the first such record of the input. *)
Theorem group_is_filter (records : list record) (nt : string * string) :
  recordsByNameType records !! nt =
    match filter (fun r => (Name r, Type_ r) = nt) records with
    | [] => None
    | g => Some g
    end.
Proof.
  rewrite recordsByNameType_foldl, foldl_addRecord_lookup, lookup_empty.
  reflexivity.
Qed.

(** ** Absolute names *)

Lemma string_length_app (a b : string) :
  String.length (a ++ b) = (String.length a + String.length b)%nat.
Proof. induction a as [|c a IH]; simpl; [reflexivity | rewrite IH; reflexivity]. Qed.

Lemma string_app_inv_tail (a : string) : ∀ b s : string, a ++ s = b ++ s → a = b.
Proof.
  induction a as [|c a IH]; intros [|d b] s Heq; simpl in Heq.
  - reflexivity.
  - apply (f_equal String.length) in Heq.
    rewrite !string_length_app in Heq. simpl in Heq. lia.
  - apply (f_equal String.length) in Heq.
    rewrite !string_length_app in Heq. simpl in Heq. lia.
  - injection Heq as -> Heq. f_equal. eapply IH, Heq.
Qed.

Lemma absolutize_inj domain rel1 rel2 :
  absolutize domain rel1 = absolutize domain rel2 → rel1 = rel2.
Proof.
  unfold absolutize.
  destruct (String.eqb_spec rel1 "@") as [->|H1], (String.eqb_spec rel2 "@") as [->|H2];
    intros Heq.
  - reflexivity.
  - apply (f_equal String.length) in Heq.
    rewrite !string_length_app in Heq. simpl in Heq. lia.
  - apply (f_equal String.length) in Heq.
    rewrite !string_length_app in Heq. simpl in Heq. lia.
  - eapply string_app_inv_tail, Heq.
Qed.

(** X12: within a domain, two different relative names never absolutize to
    the same name ("@" included: no relative name gives the bare domain but
    "@"). *)
Theorem absolutize_distinct (domain rel1 rel2 : string) (Hrel : rel1 ≠ rel2) :
  absolutize domain rel1 ≠ absolutize domain rel2.
Proof. intros Heq. apply Hrel. eapply absolutize_inj, Heq. Qed.

Lemma absolutize_distinct_witness :
  absolutize "example.com" "@" ≠ absolutize "example.com" "www".
Proof. apply absolutize_distinct. discriminate. Defined.

Lemma recordsByNameType_wellGrouped records :
  map_Forall wellGrouped (recordsByNameType records).
Proof.
  rewrite recordsByNameType_foldl. apply wellGrouped_foldl, map_Forall_empty.
Qed.

(** X13: the groups of a domain ask different questions: two groups whose
    first members have the same type and the same absolutized name are the
    same group. *)
Theorem groups_ask_distinct_questions (domain : string) (records : list record)
    (g1 g2 : list record) (r1 r2 : record)
    (Hg1 : g1 ∈ groups records) (Hg2 : g2 ∈ groups records)
    (Hr1 : head g1 = Some r1) (Hr2 : head g2 = Some r2)
    (Hname : absolutize domain (Name r1) = absolutize domain (Name r2))
    (Htype : Type_ r1 = Type_ r2) :
  g1 = g2.
Proof.
  pose proof (recordsByNameType_wellGrouped records) as Hwell.
  assert (Hkey : ∀ g r, g ∈ groups records → head g = Some r →
                        recordsByNameType records !! (Name r, Type_ r) = Some g).
  { intros g r Hg Hr. unfold groups in Hg.
    apply list_elem_of_fmap in Hg as ([nt g'] & -> & Hin). simpl in *.
    apply elem_of_map_to_list in Hin.
    destruct (Hwell _ _ Hin) as [_ Hall].
    destruct g' as [|r' g']; [discriminate|]. injection Hr as ->.
    apply Forall_inv in Hall as [Hn Ht].
    rewrite Hn, Ht. destruct nt. exact Hin. }
  pose proof (Hkey g1 r1 Hg1 Hr1) as H1.
  pose proof (Hkey g2 r2 Hg2 Hr2) as H2.
  rewrite (absolutize_inj _ _ _ Hname), Htype in H1. congruence.
Qed.

Lemma groups_ask_distinct_questions_witness :
  let a1 := mkRecord "A" "@" 300 "1.1.1.1" "" 0 [] in
  let a2 := mkRecord "A" "@" 300 "2.2.2.2" "" 0 [] in
  let t := mkRecord "TXT" "@" 300 "" "" 0 ["x"] in
  [a1; a2] ∈ groups [a1; t; a2] ∧ [a1; a2] = [a1; a2].
Proof.
  intros a1 a2 t.
  assert (Hin : [a1; a2] ∈ groups [a1; t; a2]) by (vm_compute; left).
  split; [exact Hin|].
  apply (groups_ask_distinct_questions "example.com" [a1; t; a2] [a1; a2] [a1; a2] a1 a1
           Hin Hin eq_refl eq_refl eq_refl eq_refl).
Defined.

(** ** Runs *)

Lemma existsb_isFailure_Permutation (l1 l2 : list CheckOutcome) :
  l1 ≡ₚ l2 → existsb isFailure l1 = existsb isFailure l2.
Proof.
  induction 1 as [|x l1 l2 _ IH|x y l|l1 l2 l3 _ IH1 _ IH2]; simpl.
  - reflexivity.
  - rewrite IH. reflexivity.
  - destruct (isFailure x), (isFailure y); reflexivity.
  - congruence.
Qed.

(** X14: the outcome of a run does not depend on the order in which the
    goroutines complete: two completion orders of the same goroutines (on
    non-empty groups) end with the same flag, the same exit status and the
    same outcomes up to their order. *)
Theorem run_independent_of_schedule (net : goroutine → Client)
    (sched1 sched2 : list goroutine)
    (Hgroups : Forall (fun g => g_records g ≠ []) sched1)
    (Hsame : sched1 ≡ₚ sched2) :
  ∃ w1 w2 : world,
    wait net sched1 world0 = Some w1 ∧
    wait net sched2 world0 = Some w2 ∧
    failed w1 = failed w2 ∧
    exitStatus w1 = exitStatus w2 ∧
    reported w1 ≡ₚ reported w2.
Proof.
  assert (Hgroups2 : Forall (fun g => g_records g ≠ []) sched2)
    by (rewrite <- Hsame; exact Hgroups).
  rewrite (wait_run net sched1 world0 Hgroups), (wait_run net sched2 world0 Hgroups2).
  eexists _, _. split; [reflexivity|]. split; [reflexivity|].
  assert (Hperm : outcomeOf net <$> sched1 ≡ₚ outcomeOf net <$> sched2)
    by (rewrite Hsame; reflexivity).
  unfold exitStatus. simpl.
  rewrite (existsb_isFailure_Permutation _ _ Hperm).
  repeat split. exact Hperm.
Qed.

Lemma run_independent_of_schedule_witness :
  ∃ w1 w2 : world,
    wait exampleNet (launches exampleDomains) world0 = Some w1 ∧
    wait exampleNet (reverse (launches exampleDomains)) world0 = Some w2 ∧
    failed w1 = failed w2 ∧
    exitStatus w1 = exitStatus w2 ∧
    reported w1 ≡ₚ reported w2.
Proof.
  apply (run_independent_of_schedule exampleNet (launches exampleDomains)
           (reverse (launches exampleDomains))).
  - apply launches_nonempty.
  - symmetry. apply reverse_Permutation.
Defined.

(** X15: when no domain has any record (in particular when there is no
    domain), nothing is launched, nothing is reported and the exit status
    is 0. *)
Theorem no_records_no_checks (net : goroutine → Client) (domains : list Domain)
    (Hempty : Forall (fun d => Records d = []) domains) :
  launches domains = [] ∧
  main net (launches domains) = Some (world0, 0).
Proof.
  assert (Hnone : launches domains = []).
  { unfold launches. induction Hempty as [|d domains Hd _ IH]; [reflexivity|].
    rewrite bind_cons, IH, Hd. reflexivity. }
  rewrite Hnone. split; reflexivity.
Qed.

Lemma no_records_no_checks_witness :
  launches [mkDomain "example.com" []; mkDomain "example.org" []] = [] ∧
  main exampleNet (launches [mkDomain "example.com" []; mkDomain "example.org" []])
    = Some (world0, 0).
Proof.
  apply (no_records_no_checks exampleNet
           [mkDomain "example.com" []; mkDomain "example.org" []]).
  repeat constructor.
Defined.

(** ** A whole check *)

Lemma NoDup_same_keys `{Countable K} (ks eks : list K) :
  NoDup eks → length ks = length eks →
  ((list_to_set eks : gset K) = list_to_set ks ↔ ks ≡ₚ eks).
Proof.
  intros Hnd Hlen. split.
  - intros Hset. symmetry. apply submseteq_length_Permutation; [|lia].
    apply NoDup_submseteq; [exact Hnd|].
    intros k Hk. apply (elem_of_list_to_set (C := gset K)).
    rewrite <- Hset. apply elem_of_list_to_set. exact Hk.
  - intros Hperm. rewrite Hperm. reflexivity.
Qed.

(** X16: a group of A records with pairwise distinct targets, once the
    query has returned a message, passes exactly when there are as many
    answers as members, no answer's TTL is above the converted ceiling of the
    first member, every answer is an A record, and the answers' addresses are
    the declared targets in some order. *)
Theorem A_group_passes_iff (client : Client) (ns domain name : string)
    (records0 : record) (rest : list record) (m : Msg)
    (Htype : Type_ records0 = "A")
    (Hx : client ns name "A" = mkExchanged (Some m) None)
    (Hrc : Rcode m = RcodeSuccess)
    (Hdistinct : NoDup (Target <$> records0 :: rest)) :
  doCheckRecord client ns domain name (records0 :: rest) = Ret tt ↔
  length (records0 :: rest) = length (Answer m) ∧
  Forall (fun a => Ttl (Header a) <= uint32 (TTL records0)) (Answer m) ∧
  ∃ ips : list IP,
    Forall2 (fun rr ip => ∃ h, rr = RR_A h ip) (Answer m) ips ∧
    ips ≡ₚ Target <$> records0 :: rest.
Proof.
  rewrite <- Htype in Hx.
  rewrite (doCheckRecord_answered _ _ _ _ _ _ _ Hx Hrc), Htype.
  change (dispatch "A" (Answer m) (records0 :: rest))
    with (checkARecord (Answer m) (records0 :: rest)).
  set (actualKey := fun rr => match rr with RR_A _ a => Some (IP_String a) | _ => None end).
  assert (Htyped : ∀ answers ips,
            Forall2 (fun rr k => actualKey rr = Some k) answers ips ↔
            Forall2 (fun rr ip => ∃ h, rr = RR_A h ip) answers ips).
  { intros answers ips. split; intros Hall; (eapply Forall2_impl; [exact Hall|]).
    - intros [] ip Hk; simpl in Hk; try discriminate.
      injection Hk as <-. eauto.
    - intros rr ip [h ->]. reflexivity. }
  split.
  - destruct (Nat.eqb_spec (length (records0 :: rest)) (length (Answer m))) as [Hlen|];
      cbn [negb]; [|discriminate].
    destruct (ttlLoop (TTL records0) (Answer m)) as [[]| |] eqn:Httl;
      cbn [bind]; try discriminate.
    intros Hcheck. split; [exact Hlen|]. split; [apply ttlLoop_Ret_inv, Httl|].
    unfold checkARecord, checkValues in Hcheck. cbv zeta in Hcheck.
    fold actualKey in Hcheck.
    rewrite expectedValuesOf_insertAll in Hcheck.
    rewrite insertAll_size_NoDup in Hcheck;
      [|exact Hdistinct | intros; apply lookup_empty].
    rewrite map_size_empty, length_fmap in Hcheck.
    destruct (actualValuesLoop _ _ _ _ _ _) as [av| |] eqn:Hloop;
      cbn [bind] in Hcheck; try discriminate.
    apply actualValuesLoop_Ret_inv in Hloop as (ks & Hks & Hklen & ->).
    rewrite drop_0, take_ge in Hks by (rewrite <- Hlen; simpl; lia).
    destruct (maps_Equal _ _) eqn:Heq; simpl in Hcheck; [|discriminate].
    apply maps_Equal_spec, insertAll_eq in Heq.
    exists ks. split; [apply Htyped, Hks|].
    apply NoDup_same_keys; [exact Hdistinct | | exact Heq].
    rewrite length_fmap. exact Hklen.
  - intros (Hlen & Httl & ips & Hips & Hperm).
    rewrite Hlen, Nat.eqb_refl. cbn [negb].
    rewrite (ttlLoop_pass _ _ Httl). cbn [bind].
    change (checkARecord (Answer m) (records0 :: rest))
      with (checkValues "A" Target actualKey StringKeys (Answer m) (records0 :: rest)).
    rewrite (checkValues_distinct_keys "A" Target actualKey StringKeys
               (Answer m) (records0 :: rest) ips Hdistinct (eq_sym Hlen)
               (proj2 (Htyped _ _) Hips)).
    rewrite decide_True; [reflexivity|].
    rewrite Hperm. reflexivity.
Qed.

Lemma A_group_passes_iff_witness :
  let client : Client := fun _ _ _ =>
    mkExchanged (Some (mkMsg 0 [RR_A (mkHeader 1 60) "2.2.2.2";
                                RR_A (mkHeader 1 300) "1.1.1.1"])) None in
  doCheckRecord client "8.8.8.8:53" "example.com" "example.com"
    [mkRecord "A" "@" 300 "1.1.1.1" "" 0 []; mkRecord "A" "@" 300 "2.2.2.2" "" 0 []]
  = Ret tt.
Proof.
  intros client.
  apply (A_group_passes_iff client "8.8.8.8:53" "example.com" "example.com"
           (mkRecord "A" "@" 300 "1.1.1.1" "" 0 [])
           [mkRecord "A" "@" 300 "2.2.2.2" "" 0 []]
           (mkMsg 0 [RR_A (mkHeader 1 60) "2.2.2.2"; RR_A (mkHeader 1 300) "1.1.1.1"])).
  - reflexivity.
  - reflexivity.
  - reflexivity.
  - apply NoDup_cons. split; [|apply NoDup_singleton].
    intros Hin. apply list_elem_of_singleton in Hin. discriminate Hin.
  - split; [reflexivity|]. split.
    + repeat constructor; vm_compute; discriminate.
    + exists ["2.2.2.2"; "1.1.1.1"]. split; [|apply perm_swap].
      repeat constructor; eauto.
Defined.
